(** * rutas_cisternas.py: shortest routes for water-tanker delivery

    A shallow embedding of the class [GrafoRutasCisternas] (a directed,
    weighted road network with a Dijkstra query) and the properties of
    its [dijkstra] method.

    Python values are modelled as follows.
    - Nodes and edge weights are Python [int]s (as in [aristas_red]):
      unbounded integers, [Z].
    - [self.grafo], a [defaultdict(list)], is a [gmap Z (list Z)] whose
      item access inserts the missing key with an empty list.
    - [self.vertices], a [set], is a [gset Z]; [self.pesos], a [dict]
      keyed by pairs, is a [gmap (Z * Z) Z].
    - A distance label is an [int] or [float('inf')]: type [distancia].
    - A subscript on a plain [dict] with a missing key raises [KeyError].
    - [heapq] is modelled by its contract: [heappop] removes and returns
      the smallest item of the heap.  Items are pairs of integers, ordered
      lexicographically, a total order, so the item returned is determined
      by the contents of the heap alone.
    - The two [while] loops take a bound on the number of iterations
      (fuel); running out of it is the outcome [Agotado]. *)

From stdpp Require Import gmap list.
From Stdlib Require Import ZArith Lia.

Local Open Scope Z_scope.

(** ** Outcomes of a computation *)

Inductive excepcion : Type := KeyError.

Inductive resultado (A : Type) : Type :=
| Val (a : A)
| Exc (e : excepcion)
| Agotado.

Arguments Val {A} a.
Arguments Exc {A} e.
Arguments Agotado {A}.

#[global] Instance resultado_ret : MRet resultado := fun A a => Val a.

#[global] Instance resultado_bind : MBind resultado := fun A B k m =>
  match m with
  | Val a => k a
  | Exc e => Exc e
  | Agotado => Agotado
  end.

(** [d[k]] on a plain dict. *)
Definition getitem `{Countable K} {V : Type} (d : gmap K V) (k : K) : resultado V :=
  match d !! k with
  | Some v => Val v
  | None => Exc KeyError
  end.

(** ** Distance labels *)

Inductive distancia : Type :=
| Finita (z : Z)
| Infinito.

(** [n < d] for an integer [n] and a label [d]. *)
Definition menor (n : Z) (d : distancia) : bool :=
  match d with
  | Finita z => n <? z
  | Infinito => true
  end.

(** ** The graph store *)

Record GrafoRutasCisternas : Type := {
  grafo : gmap Z (list Z);
  vertices : gset Z;
  pesos : gmap (Z * Z) Z
}.

(** [__init__] *)
Definition init : GrafoRutasCisternas :=
  {| grafo := ∅; vertices := ∅; pesos := ∅ |}.

(** [self.grafo[u]] on the [defaultdict(list)]: a missing key is
    inserted with a fresh empty list. *)
Definition getitem_default (g : gmap Z (list Z)) (u : Z) : gmap Z (list Z) * list Z :=
  match g !! u with
  | Some l => (g, l)
  | None => (<[u := []]> g, [])
  end.

Definition agregar_arista (G : GrafoRutasCisternas) (u v peso : Z) : GrafoRutasCisternas :=
  let '(g, l) := getitem_default (grafo G) u in
  {| grafo := <[u := l ++ [v]]> g;
     vertices := {[v]} ∪ ({[u]} ∪ vertices G);
     pesos := <[(u, v) := peso]> (pesos G) |}.

(** ** heapq on a list of (distance, node) pairs *)

Definition tupla_le (a b : Z * Z) : bool :=
  (a.1 <? b.1) || ((a.1 =? b.1) && (a.2 <=? b.2)).

Definition heappush (q : list (Z * Z)) (x : Z * Z) : list (Z * Z) := x :: q.

Fixpoint heappop (q : list (Z * Z)) : option ((Z * Z) * list (Z * Z)) :=
  match q with
  | [] => None
  | x :: q' =>
      match heappop q' with
      | None => Some (x, [])
      | Some (m, r) => if tupla_le x m then Some (x, q') else Some (m, x :: r)
      end
  end.

(** ** The working state of one query *)

Record estado : Type := {
  distancias : gmap Z distancia;
  padre : gmap Z (option Z);
  visitados : gset Z;
  cola_prioridad : list (Z * Z)
}.

(** The body of [for vecino in self.grafo[vertice_actual]]. *)
Definition relajar_vecino (P : gmap (Z * Z) Z) (u d : Z) (st : estado) (vecino : Z)
  : resultado estado :=
  peso_arista ← getitem P (u, vecino);
  let nueva_distancia := d + peso_arista in
  dv ← getitem (distancias st) vecino;
  if menor nueva_distancia dv then
    Val {| distancias := <[vecino := Finita nueva_distancia]> (distancias st);
           padre := <[vecino := Some u]> (padre st);
           visitados := visitados st;
           cola_prioridad := heappush (cola_prioridad st) (nueva_distancia, vecino) |}
  else Val st.

Fixpoint relajar (P : gmap (Z * Z) Z) (u d : Z) (vecinos : list Z) (st : estado)
  : resultado estado :=
  match vecinos with
  | [] => Val st
  | vecino :: resto =>
      st' ← relajar_vecino P u d st vecino;
      relajar P u d resto st'
  end.

(** A stale entry was popped: only the heap changes. *)
Definition descartar (st : estado) (cola' : list (Z * Z)) : estado :=
  {| distancias := distancias st; padre := padre st;
     visitados := visitados st; cola_prioridad := cola' |}.

(** [visitados.add(vertice_actual)], after the pop. *)
Definition visitar (st : estado) (u : Z) (cola' : list (Z * Z)) : estado :=
  {| distancias := distancias st; padre := padre st;
     visitados := {[u]} ∪ visitados st; cola_prioridad := cola' |}.

(** The main [while cola_prioridad] loop.  The adjacency map is threaded
    through because reading it can insert a key. *)
Fixpoint bucle (fuel : nat) (P : gmap (Z * Z) Z) (destino : Z)
    (g : gmap Z (list Z)) (st : estado) : gmap Z (list Z) * resultado estado :=
  match heappop (cola_prioridad st) with
  | None => (g, Val st)
  | Some ((distancia_actual, vertice_actual), cola') =>
      match fuel with
      | O => (g, Agotado)
      | S fuel' =>
          if decide (vertice_actual ∈ visitados st) then
            bucle fuel' P destino g (descartar st cola')
          else
            let st1 := visitar st vertice_actual cola' in
            if decide (vertice_actual = destino) then (g, Val st1)
            else
              let '(g', vecinos) := getitem_default g vertice_actual in
              match relajar P vertice_actual distancia_actual vecinos st1 with
              | Val st2 => bucle fuel' P destino g' st2
              | Exc e => (g', Exc e)
              | Agotado => (g', Agotado)
              end
      end
  end.

(** The [while actual is not None] loop; [camino] grows by [append]. *)
Fixpoint reconstruir (fuel : nat) (pa : gmap Z (option Z)) (actual : option Z)
    (camino : list Z) : resultado (list Z) :=
  match actual with
  | None => Val camino
  | Some a =>
      match fuel with
      | O => Agotado
      | S fuel' =>
          sig ← getitem pa a;
          reconstruir fuel' pa sig (camino ++ [a])
      end
  end.

(** The returned tuple [(costo_total, camino, longitud_ruta)]; the cost
    is [None] in the unreachable case. *)
Definition tupla : Type := option Z * list Z * nat.

Definition estado_inicial (G : GrafoRutasCisternas) (origen : Z) : estado :=
  {| distancias := <[origen := Finita 0]> (gset_to_gmap Infinito (vertices G));
     padre := gset_to_gmap None (vertices G);
     visitados := ∅;
     cola_prioridad := [(0, origen)] |}.

Definition dijkstra (fuel : nat) (G : GrafoRutasCisternas) (origen destino : Z)
  : GrafoRutasCisternas * resultado tupla :=
  let '(g, r) := bucle fuel (pesos G) destino (grafo G) (estado_inicial G origen) in
  ({| grafo := g; vertices := vertices G; pesos := pesos G |},
   st ← r;
   dd ← getitem (distancias st) destino;
   match dd with
   | Infinito => Val (None, [], 0%nat)
   | Finita c =>
       camino ← reconstruir fuel (padre st) (Some destino) [];
       Val (Some c, rev camino, length (rev camino))
   end).

(** ** The fixed 5x5 network of the script *)

Definition aristas_red : list (Z * Z * Z) :=
  [ (0, 1, 15); (1, 2, 12); (2, 3, 18); (3, 4, 14);
    (5, 6, 16); (6, 7, 13); (7, 8, 17); (8, 9, 15);
    (10, 11, 14); (11, 12, 19); (12, 13, 13); (13, 14, 16);
    (15, 16, 17); (16, 17, 12); (17, 18, 15); (18, 19, 18);
    (20, 21, 13); (21, 22, 16); (22, 23, 14); (23, 24, 17);
    (0, 5, 20); (5, 10, 18); (10, 15, 22); (15, 20, 19);
    (1, 6, 18); (6, 11, 16); (11, 16, 20); (16, 21, 17);
    (2, 7, 19); (7, 12, 17); (12, 17, 18); (17, 22, 21);
    (3, 8, 16); (8, 13, 19); (13, 18, 17); (18, 23, 19);
    (4, 9, 17); (9, 14, 18); (14, 19, 20); (19, 24, 18);
    (1, 5, 22); (6, 2, 21); (7, 3, 20); (8, 4, 23);
    (11, 7, 19); (12, 8, 18); (13, 9, 21);
    (16, 12, 20); (17, 13, 19); (18, 14, 22) ].

(** [for u, v, peso in aristas: G.agregar_arista(u, v, peso)] *)
Definition agregar_aristas (G : GrafoRutasCisternas) (aristas : list (Z * Z * Z))
  : GrafoRutasCisternas :=
  fold_left (fun G '(u, v, peso) => agregar_arista G u v peso) aristas G.

Definition red : GrafoRutasCisternas := agregar_aristas init aristas_red.

Definition DEPOSITO : Z := 0.
Definition PUNTO_ENTREGA : Z := 24.

(** ** Routes and their cost: the vocabulary of the specification *)

(** The consecutive pairs of a node sequence. *)
Fixpoint aristas_de (p : list Z) : list (Z * Z) :=
  match p with
  | a :: ((b :: _) as q) => (a, b) :: aristas_de q
  | _ => []
  end.

(** [weight(u, v)], read in [self.pesos]. *)
Definition peso (G : GrafoRutasCisternas) (e : Z * Z) : Z :=
  default 0 (pesos G !! e).

Definition costo_camino (G : GrafoRutasCisternas) (p : list Z) : Z :=
  foldr (fun e k => peso G e + k) 0 (aristas_de p).

(** [p] is a directed route from [a] to [b]: it starts at [a], ends at
    [b], and every consecutive pair is an edge recorded in [self.pesos]. *)
Definition es_camino (G : GrafoRutasCisternas) (a b : Z) (p : list Z) : Prop :=
  head p = Some a ∧ last p = Some b ∧
  Forall (fun e => is_Some (pesos G !! e)) (aristas_de p).

Definition alcanzable (G : GrafoRutasCisternas) (a b : Z) : Prop :=
  ∃ p, es_camino G a b p.

(** The state of an object of the class: what [__init__], [agregar_arista]
    and the adjacency reads of [dijkstra] maintain.  The adjacency lists
    and the weight table record the same edges, and every endpoint is a
    known node. *)
Definition grafo_ok (G : GrafoRutasCisternas) : Prop :=
  map_Forall (fun u l => Forall (fun v => is_Some (pesos G !! (u, v))) l) (grafo G) ∧
  map_Forall (fun e _ => e.2 ∈ grafo G !!! e.1 ∧ e.1 ∈ vertices G ∧ e.2 ∈ vertices G)
             (pesos G).

Definition pesos_no_negativos (G : GrafoRutasCisternas) : Prop :=
  map_Forall (fun _ w => 0 <= w) (pesos G).

(** Number of entries of the adjacency lists of the nodes of [X]. *)
Definition pendientes (g : gmap Z (list Z)) (X : gset Z) : nat :=
  sum_list_with (fun x => length (g !!! x)) (elements X).

Definition entradas (G : GrafoRutasCisternas) : nat :=
  pendientes (grafo G) (vertices G).

(** Enough fuel for both loops of a query. *)
Definition cota (G : GrafoRutasCisternas) : nat :=
  (1 + entradas G + size (vertices G))%nat.

#[global] Instance grafo_ok_dec G : Decision (grafo_ok G).
Proof. unfold grafo_ok. apply _. Defined.

#[global] Instance pesos_no_negativos_dec G : Decision (pesos_no_negativos G).
Proof. unfold pesos_no_negativos. apply _. Defined.

#[global] Instance es_camino_dec G a b p : Decision (es_camino G a b p).
Proof. unfold es_camino. apply _. Defined.


(** ** Auxiliary notions for the proofs *)

(** [ruta G a b p k]: [p] is a route from [a] to [b] of cost [k], built
    edge by edge at its end. *)
Inductive ruta (G : GrafoRutasCisternas) (a : Z) : Z -> list Z -> Z -> Prop :=
| ruta_uno : ruta G a a [a] 0
| ruta_paso b c p k w :
    ruta G a b p k -> pesos G !! (b, c) = Some w -> ruta G a c (p ++ [c]) (k + w).

(** [cadena pa v l]: following the predecessor links of [pa] from [v]
    visits exactly the nodes of [l] and then meets [None]. *)
Inductive cadena (pa : gmap Z (option Z)) : Z -> list Z -> Prop :=
| cadena_raiz v : pa !! v = Some None -> cadena pa v [v]
| cadena_paso v u l : pa !! v = Some (Some u) -> cadena pa u l -> cadena pa v (v :: l).

(** Variant of the main loop. *)
Definition medida (G : GrafoRutasCisternas) (st : estado) : nat :=
  (length (cola_prioridad st) + pendientes (grafo G) (vertices G ∖ visitados st))%nat.

(** Invariant of the main loop that holds for every weight table. *)
Record inv_basico (G : GrafoRutasCisternas) (origen : Z)
    (g : gmap Z (list Z)) (st : estado) : Prop := {
  ib_grafo : ∀ x, g !!! x = grafo G !!! x;
  ib_dist : dom (distancias st) = vertices G;
  ib_padre : dom (padre st) = vertices G;
  ib_visitados : visitados st ⊆ vertices G;
  ib_cola : ∀ d v, (d, v) ∈ cola_prioridad st -> v ∈ vertices G ∧ alcanzable G origen v;
  ib_alcanzable : ∀ v c, distancias st !! v = Some (Finita c) -> alcanzable G origen v
}.

(** Invariant of the main loop for non-negative weights.  [pend u v]
    marks the edges out of a visited node that are still to be relaxed. *)
Record inv_dijkstra (G : GrafoRutasCisternas) (origen : Z)
    (pend : Z -> Z -> Prop) (st : estado) : Prop := {
  id_origen : distancias st !! origen = Some (Finita 0);
  id_origen_padre : padre st !! origen = Some None;
  id_inicio : origen ∈ visitados st ∨
              (visitados st = ∅ ∧ cola_prioridad st = [(0, origen)]);
  id_cola_cota : ∀ d v, (d, v) ∈ cola_prioridad st ->
      ∃ c, distancias st !! v = Some (Finita c) ∧ c <= d;
  id_cola_completa : ∀ v c, distancias st !! v = Some (Finita c) ->
      v ∉ visitados st -> (c, v) ∈ cola_prioridad st;
  id_visitado_min : ∀ v, v ∈ visitados st ->
      ∃ c, distancias st !! v = Some (Finita c) ∧
           ∀ d y, (d, y) ∈ cola_prioridad st -> c <= d;
  id_relajado : ∀ u v w, u ∈ visitados st -> pesos G !! (u, v) = Some w ->
      pend u v ∨
      ∃ cu cv, distancias st !! u = Some (Finita cu) ∧
               distancias st !! v = Some (Finita cv) ∧ cv <= cu + w;
  id_padre : ∀ v c, distancias st !! v = Some (Finita c) -> v ≠ origen ->
      ∃ u cu w, padre st !! v = Some (Some u) ∧ u ∈ visitados st ∧
                distancias st !! u = Some (Finita cu) ∧
                pesos G !! (u, v) = Some w ∧ c = cu + w;
  id_cadena : ∀ v, v ∈ visitados st ->
      ∃ l c, cadena (padre st) v l ∧ (∀ x, x ∈ l -> x ∈ visitados st) ∧
             (length l <= size (visitados st))%nat ∧
             distancias st !! v = Some (Finita c) ∧ ruta G origen v (rev l) c
}.

(** How the main loop was left, for an invariant [J]: the heap ran empty,
    or [destino] was popped for the first time. *)
Definition fin_bucle (G : GrafoRutasCisternas) (origen destino : Z)
    (J : estado -> Prop) (g : gmap Z (list Z)) (st' : estado) : Prop :=
  (inv_basico G origen g st' ∧ J st' ∧ cola_prioridad st' = []) ∨
  (∃ st d cola', inv_basico G origen g st ∧ J st ∧
      heappop (cola_prioridad st) = Some ((d, destino), cola') ∧
      (destino ∉ visitados st) ∧ st' = visitar st destino cola').

Definition nada_por_relajar : Z -> Z -> Prop := fun _ _ => False.

Definition por_relajar (u : Z) (vs : list Z) : Z -> Z -> Prop :=
  fun x v => x = u ∧ v ∈ vs.

(** The state while the edges out of [u], popped at distance [d], are
    relaxed; [vs] are the neighbours still to come. *)
Definition relajando (G : GrafoRutasCisternas) (origen u d : Z) (vs : list Z)
    (st : estado) : Prop :=
  inv_dijkstra G origen (por_relajar u vs) st ∧
  u ∈ visitados st ∧
  distancias st !! u = Some (Finita d) ∧
  ∀ x, x ∈ visitados st -> ∃ c, distancias st !! x = Some (Finita c) ∧ c <= d.

(** The adjacency lists matter only through what relaxing them does. *)
Definition mismos_vecinos (g1 g2 : gmap Z (list Z)) : Prop :=
  ∀ x P u d st, relajar P u d (g1 !!! x) st = relajar P u d (g2 !!! x) st.

(** Two small graphs for examples: one edge, and one edge written twice. *)
Definition un_tramo : GrafoRutasCisternas := agregar_arista init 1 2 5.

Definition tramo_repetido : GrafoRutasCisternas :=
  agregar_arista (agregar_arista init 1 2 5) 1 2 3.

(** ** Further notions: object states, other loop invariants, the plot *)

(** The states an object of the class goes through: [__init__], then any
    sequence of [agregar_arista] and [dijkstra] calls. *)
Inductive accesible : GrafoRutasCisternas -> Prop :=
| accesible_init : accesible init
| accesible_agregar G u v w :
    accesible G -> accesible (agregar_arista G u v w)
| accesible_dijkstra fuel G origen destino :
    accesible G -> accesible (dijkstra fuel G origen destino).1.

(** Every predecessor recorded is a known node. *)
Definition padres_conocidos (G : GrafoRutasCisternas) (st : estado) : Prop :=
  ∀ v u, padre st !! v = Some (Some u) -> u ∈ vertices G.

(** Invariant of the main loop for every weight table: which nodes carry
    a finite label. *)
Record inv_alcance (G : GrafoRutasCisternas) (origen : Z)
    (pend : Z -> Z -> Prop) (st : estado) : Prop := {
  ia_origen : ∃ c, distancias st !! origen = Some (Finita c);
  ia_cola : ∀ d v, (d, v) ∈ cola_prioridad st ->
      ∃ c, distancias st !! v = Some (Finita c);
  ia_completa : ∀ v c, distancias st !! v = Some (Finita c) ->
      v ∉ visitados st -> ∃ d, (d, v) ∈ cola_prioridad st;
  ia_relajado : ∀ u v w, u ∈ visitados st -> pesos G !! (u, v) = Some w ->
      pend u v ∨ ∃ c, distancias st !! v = Some (Finita c)
}.

(** No predecessor chain of a visited node passes a node twice. *)
Definition cadenas_simples (st : estado) : Prop :=
  ∀ v l, v ∈ visitados st -> cadena (padre st) v l -> NoDup l.

(** Two graphs with a negative weight: a shortcut through a negative
    edge, and a cycle of negative total weight on the way. *)
Definition atajo_negativo : GrafoRutasCisternas :=
  agregar_aristas init [(0, 1, 2); (0, 2, 3); (2, 1, -2)].

Definition ciclo_negativo : GrafoRutasCisternas :=
  agregar_aristas init [(0, 1, 1); (1, 0, -5); (1, 2, 1)].

(** Invariant of the main loop for every weight table: what the
    predecessor links record. *)
Record inv_traza (G : GrafoRutasCisternas) (origen : Z) (st : estado) : Prop := {
  it_arista : ∀ v u, padre st !! v = Some (Some u) ->
      is_Some (pesos G !! (u, v)) ∧ ∃ c, distancias st !! u = Some (Finita c);
  it_raiz : ∀ v c, distancias st !! v = Some (Finita c) -> v ≠ origen ->
      ∃ u, padre st !! v = Some (Some u)
}.

(** The plot of the script.  A marker is drawn for [nodo = i * 5 + j] at
    [(j, -i)], for [i] and [j] in [range(5)]; the ends of an edge are
    drawn at [(u % 5, -(u // 5))].  Python's [//] and [%] round towards
    minus infinity, as [Z.div] and [Z.modulo] do. *)
Definition nodo_de (i j : Z) : Z := i * 5 + j.

Definition posicion (u : Z) : Z * Z := (u `mod` 5, - (u `div` 5)).

(** Two working states that differ at most in the order of the heap
    list, and two outcomes of a loop that do. *)
Definition estados_iguales (st1 st2 : estado) : Prop :=
  distancias st1 = distancias st2 ∧ padre st1 = padre st2 ∧
  visitados st1 = visitados st2 ∧ cola_prioridad st1 ≡ₚ cola_prioridad st2.

Definition resultados_iguales (r1 r2 : resultado estado) : Prop :=
  match r1, r2 with
  | Val st1, Val st2 => estados_iguales st1 st2
  | Exc e1, Exc e2 => e1 = e2
  | Agotado, Agotado => True
  | _, _ => False
  end.

(** Two objects with the same nodes and weights whose adjacency lists
    hold the same entries, in any order. *)
Definition mismas_aristas (G1 G2 : GrafoRutasCisternas) : Prop :=
  vertices G1 = vertices G2 ∧ pesos G1 = pesos G2 ∧
  ∀ x, grafo G1 !!! x ≡ₚ grafo G2 !!! x.

(** The label of every visited node is a lower bound on the cost of the
    routes that reach it. *)
Definition etiquetas_optimas (G : GrafoRutasCisternas) (origen : Z)
    (st : estado) : Prop :=
  ∀ v c p k, v ∈ visitados st -> distancias st !! v = Some (Finita c) ->
             ruta G origen v p k -> c <= k.

(** * Properties *)

(** ** The heap *)

Lemma tupla_le_total a b : tupla_le a b = false -> tupla_le b a = true.
Proof.
  unfold tupla_le. destruct a as [a1 a2], b as [b1 b2]; simpl.
  rewrite orb_false_iff, andb_false_iff, orb_true_iff, andb_true_iff.
  rewrite !Z.ltb_ge, !Z.ltb_lt, !Z.eqb_eq, Z.eqb_neq, Z.leb_gt, Z.leb_le. lia.
Qed.

Lemma tupla_le_trans a b c :
  tupla_le a b = true -> tupla_le b c = true -> tupla_le a c = true.
Proof.
  unfold tupla_le. destruct a as [a1 a2], b as [b1 b2], c as [c1 c2]; simpl.
  rewrite !orb_true_iff, !andb_true_iff.
  rewrite !Z.ltb_lt, !Z.eqb_eq, !Z.leb_le. lia.
Qed.

Lemma tupla_le_fst a b : tupla_le a b = true -> a.1 <= b.1.
Proof.
  unfold tupla_le. rewrite orb_true_iff, andb_true_iff.
  rewrite Z.ltb_lt, Z.eqb_eq. lia.
Qed.

Lemma heappop_None q : heappop q = None <-> q = [].
Proof.
  split; [|intros ->; reflexivity].
  destruct q as [|x q]; [reflexivity|]. simpl.
  destruct (heappop q) as [[m r]|]; [|discriminate].
  destruct (tupla_le x m); discriminate.
Qed.

(** [heappop] returns a smallest item and leaves the others. *)
Lemma heappop_Some q m r :
  heappop q = Some (m, r) ->
  q ≡ₚ m :: r ∧ Forall (fun x => tupla_le m x = true) q.
Proof.
  revert m r. induction q as [|x q IH]; intros m r; simpl; [discriminate|].
  destruct (heappop q) as [[m' r']|] eqn:Hq.
  - destruct (IH _ _ eq_refl) as [Hp Hall].
    destruct (tupla_le x m') eqn:Hle; intros [= <- <-].
    + split; [reflexivity|]. constructor.
      * unfold tupla_le. destruct x as [x1 x2]; simpl.
        rewrite Z.ltb_irrefl, Z.eqb_refl, Z.leb_refl. reflexivity.
      * eapply Forall_impl; [exact Hall|]. simpl. eauto using tupla_le_trans.
    + split.
      * rewrite Hp. apply perm_swap.
      * constructor; [by apply tupla_le_total | exact Hall].
  - apply heappop_None in Hq as ->. intros [= <- <-].
    split; [reflexivity|]. constructor; [|constructor].
    unfold tupla_le. destruct x as [x1 x2]; simpl.
    rewrite Z.ltb_irrefl, Z.eqb_refl, Z.leb_refl. reflexivity.
Qed.

Lemma heappop_elem q d u r :
  heappop q = Some ((d, u), r) -> (d, u) ∈ q.
Proof.
  intros [Hp _]%heappop_Some. rewrite Hp. apply list_elem_of_here.
Qed.

Lemma heappop_resto q m r x :
  heappop q = Some (m, r) -> x ∈ r -> x ∈ q.
Proof.
  intros [Hp _]%heappop_Some Hx. rewrite Hp. by apply list_elem_of_further.
Qed.

Lemma heappop_min q d u r d' y :
  heappop q = Some ((d, u), r) -> (d', y) ∈ q -> d <= d'.
Proof.
  intros [_ Hall]%heappop_Some Hy.
  rewrite Forall_forall in Hall. apply Hall, tupla_le_fst in Hy. exact Hy.
Qed.

Lemma heappop_otro q m r x :
  heappop q = Some (m, r) -> x ∈ q -> x ≠ m -> x ∈ r.
Proof.
  intros [Hp _]%heappop_Some Hx Hne. rewrite Hp in Hx.
  apply elem_of_cons in Hx as [?|?]; [contradiction|assumption].
Qed.

Lemma heappop_length q m r :
  heappop q = Some (m, r) -> length q = S (length r).
Proof. intros [Hp _]%heappop_Some. by rewrite Hp. Qed.

(** ** Routes *)

Lemma aristas_de_snoc p b c :
  last p = Some b -> aristas_de (p ++ [c]) = aristas_de p ++ [(b, c)].
Proof.
  induction p as [|x [|y p] IH]; simpl; intros Hl.
  - discriminate.
  - by injection Hl as ->.
  - f_equal. apply IH. exact Hl.
Qed.

Lemma costo_camino_snoc G p b c :
  last p = Some b -> costo_camino G (p ++ [c]) = costo_camino G p + peso G (b, c).
Proof.
  intros Hl. unfold costo_camino. rewrite (aristas_de_snoc _ b) by done.
  rewrite foldr_app. simpl.
  generalize (aristas_de p). intros l. induction l as [|e l IH]; simpl; lia.
Qed.

Lemma ruta_es_camino G a b p k :
  ruta G a b p k -> es_camino G a b p ∧ costo_camino G p = k.
Proof.
  induction 1 as [|b c p k w _ [(Hh & Hl & Hall) Hk] Hw].
  - repeat split. constructor.
  - split; [split; [|split]|].
    + destruct p; [discriminate|exact Hh].
    + apply last_snoc.
    + rewrite (aristas_de_snoc _ b) by done.
      apply Forall_app. split; [exact Hall|]. repeat constructor. by eexists.
    + rewrite (costo_camino_snoc _ _ b) by done.
      unfold peso. rewrite Hw. simpl. lia.
Qed.

Lemma es_camino_ruta G a b p :
  es_camino G a b p -> ruta G a b p (costo_camino G p).
Proof.
  revert b. induction p as [|x q IH] using rev_ind; intros b (Hh & Hl & Hall).
  - discriminate.
  - rewrite last_snoc in Hl. injection Hl as ->.
    destruct (last q) as [y|] eqn:Hq.
    + rewrite (aristas_de_snoc _ y) in Hall by done.
      apply Forall_app in Hall as [Hall Hyb].
      apply Forall_singleton in Hyb as [w Hw].
      rewrite (costo_camino_snoc _ _ y) by done.
      unfold peso at 1. rewrite Hw. simpl.
      apply ruta_paso with (b := y); [|exact Hw].
      apply IH. split; [|split]; [|done|done].
      destruct q; [discriminate|exact Hh].
    + apply last_None in Hq as ->. simpl in Hh. injection Hh as ->.
      apply ruta_uno.
Qed.

Lemma alcanzable_ruta G a b : alcanzable G a b <-> ∃ p k, ruta G a b p k.
Proof.
  split.
  - intros [p Hp]. eauto using es_camino_ruta.
  - intros (p & k & Hr). exists p. by apply ruta_es_camino in Hr as [? _].
Qed.

Lemma alcanzable_refl G a : alcanzable G a a.
Proof. apply alcanzable_ruta. eauto using ruta_uno. Qed.

Lemma alcanzable_paso G a b c w :
  alcanzable G a b -> pesos G !! (b, c) = Some w -> alcanzable G a c.
Proof.
  rewrite !alcanzable_ruta. intros (p & k & Hr) Hw. eauto using ruta_paso.
Qed.

Lemma ruta_costo_no_negativo G a b p k :
  pesos_no_negativos G -> ruta G a b p k -> 0 <= k.
Proof.
  intros Hnn. induction 1 as [|b c p k w _ IH Hw]; [lia|].
  apply Hnn in Hw. simpl in Hw. lia.
Qed.

(** ** The graph store *)

Lemma getitem_default_snd g u : (getitem_default g u).2 = g !!! u.
Proof.
  unfold getitem_default. rewrite lookup_total_alt.
  by destruct (g !! u).
Qed.

Lemma getitem_default_fst g u x : (getitem_default g u).1 !!! x = g !!! x.
Proof.
  unfold getitem_default. destruct (g !! u) eqn:Hu; [done|]. simpl.
  rewrite !lookup_total_alt. destruct (decide (u = x)) as [->|Hne].
  - by rewrite lookup_insert_eq, Hu.
  - by rewrite lookup_insert_ne.
Qed.

Lemma grafo_ok_vecino G u v :
  grafo_ok G -> v ∈ grafo G !!! u -> is_Some (pesos G !! (u, v)).
Proof.
  intros [Hady _] Hv. rewrite lookup_total_alt in Hv.
  destruct (grafo G !! u) as [l|] eqn:Hu; simpl in Hv.
  - apply Hady in Hu. rewrite Forall_forall in Hu. by apply Hu.
  - by apply not_elem_of_nil in Hv.
Qed.

Lemma grafo_ok_arista G u v w :
  grafo_ok G -> pesos G !! (u, v) = Some w ->
  v ∈ grafo G !!! u ∧ u ∈ vertices G ∧ v ∈ vertices G.
Proof. intros [_ Hp] Hw. apply Hp in Hw. exact Hw. Qed.

Lemma grafo_ok_init : grafo_ok init.
Proof. split; apply map_Forall_empty. Qed.

Lemma grafo_ok_agregar_arista G u v w :
  grafo_ok G -> grafo_ok (agregar_arista G u v w).
Proof.
  intros Hok. unfold agregar_arista.
  pose proof (getitem_default_snd (grafo G) u) as Hs.
  pose proof (getitem_default_fst (grafo G) u) as Hf.
  destruct (getitem_default (grafo G) u) as [g l]. simpl in Hs, Hf. subst l.
  assert (Hlk : ∀ x, <[u := grafo G !!! u ++ [v]]> g !!! x =
                     if decide (u = x) then grafo G !!! u ++ [v] else grafo G !!! x).
  { intros x. rewrite lookup_total_insert. case_decide; [done|apply Hf]. }
  split; simpl.
  - intros x l Hx.
    assert (Hl : l = <[u := grafo G !!! u ++ [v]]> g !!! x).
    { by rewrite lookup_total_alt, Hx. }
    rewrite Hlk in Hl. subst l. apply Forall_forall. intros y Hy.
    destruct (decide ((u, v) = (x, y))) as [[= <- <-]|Hne].
    + rewrite lookup_insert_eq. by eexists.
    + rewrite lookup_insert_ne by done.
      apply (grafo_ok_vecino G); [done|].
      case_decide as Hux; [|done]. subst x.
      apply elem_of_app in Hy as [Hy|Hy]; [done|].
      apply list_elem_of_singleton in Hy. congruence.
  - intros [x y] w' Hxy. simpl. rewrite Hlk.
    destruct (decide ((u, v) = (x, y))) as [[= <- <-]|Hne].
    + rewrite decide_True by done. split; [|set_solver].
      apply elem_of_app. right. apply list_elem_of_here.
    + rewrite lookup_insert_ne in Hxy by done.
      apply (grafo_ok_arista G) in Hxy as (Hy & Hx1 & Hy1); [|done].
      split; [|set_solver]. case_decide; [|done]. subst x.
      apply elem_of_app. by left.
Qed.

Lemma grafo_ok_agregar_aristas G l :
  grafo_ok G -> grafo_ok (agregar_aristas G l).
Proof.
  unfold agregar_aristas. revert G.
  induction l as [|[[u v] w] l IH]; intros G Hok; simpl; [done|].
  apply IH. by apply grafo_ok_agregar_arista.
Qed.

(** A graph whose adjacency map returns the same lists is as good. *)
Lemma grafo_ok_mismo G g :
  grafo_ok G -> (∀ x, g !!! x = grafo G !!! x) ->
  grafo_ok {| grafo := g; vertices := vertices G; pesos := pesos G |}.
Proof.
  intros Hok Hg. split; simpl.
  - intros x l Hx. apply Forall_forall. intros y Hy.
    apply (grafo_ok_vecino G); [done|].
    rewrite <- Hg, lookup_total_alt, Hx. exact Hy.
  - intros [x y] w Hw. simpl. rewrite Hg.
    by apply (grafo_ok_arista G) in Hw.
Qed.

Lemma pendientes_quitar g X u :
  u ∈ X -> pendientes g X = (length (g !!! u) + pendientes g (X ∖ {[u]}))%nat.
Proof.
  intros Hu. unfold pendientes.
  assert (HX : X = {[u]} ∪ X ∖ {[u]}).
  { apply set_eq. intros x. destruct (decide (x = u)); set_solver. }
  rewrite HX at 1. rewrite elements_union_singleton by set_solver. reflexivity.
Qed.

(** ** The main loop, for every weight table *)

Section bucle_basico.
Variables (G : GrafoRutasCisternas) (origen destino : Z).
Hypothesis Hok : grafo_ok G.
Hypothesis Horigen : origen ∈ vertices G.

Lemma inv_basico_inicial :
  inv_basico G origen (grafo G) (estado_inicial G origen).
Proof using Hok Horigen.
  split; simpl.
  - done.
  - rewrite dom_insert_L, dom_gset_to_gmap. set_solver.
  - apply dom_gset_to_gmap.
  - set_solver.
  - intros d v Hv. apply list_elem_of_singleton in Hv as [= -> ->].
    split; [done|apply alcanzable_refl].
  - intros v c Hv. apply lookup_insert_Some in Hv as [[<- _]|[_ Hv]].
    + apply alcanzable_refl.
    + apply lookup_gset_to_gmap_Some in Hv as [_ [=]].
Qed.

Lemma relajar_vecino_basico g u d st v :
  inv_basico G origen g st -> alcanzable G origen u -> v ∈ grafo G !!! u ->
  ∃ st', relajar_vecino (pesos G) u d st v = Val st' ∧
         inv_basico G origen g st' ∧ visitados st' = visitados st ∧
         (length (cola_prioridad st') <= S (length (cola_prioridad st)))%nat.
Proof using Hok Horigen.
  intros Hb Hu Hv.
  destruct (grafo_ok_vecino G u v Hok Hv) as [w Hw].
  destruct (grafo_ok_arista G u v w Hok Hw) as (_ & _ & Hvv).
  assert (is_Some (distancias st !! v)) as [dv Hdv].
  { apply elem_of_dom. by rewrite (ib_dist _ _ _ _ Hb). }
  unfold relajar_vecino, getitem. rewrite Hw. simpl. rewrite Hdv. simpl.
  destruct (menor (d + w) dv); [|eauto 6].
  eexists. split; [reflexivity|]. split; [|simpl; auto].
  destruct Hb as [B1 B2 B3 B4 B5 B6]. split; simpl; auto.
  - rewrite dom_insert_L. set_solver.
  - rewrite dom_insert_L. set_solver.
  - intros d' v' Hv'. apply elem_of_cons in Hv' as [[= -> ->]|Hv']; [|eauto].
    split; [done|]. eauto using alcanzable_paso.
  - intros v' c Hv'. apply lookup_insert_Some in Hv' as [[<- _]|[_ Hv']].
    + eauto using alcanzable_paso.
    + eauto.
Qed.

Lemma relajar_basico g u d vs st :
  inv_basico G origen g st -> alcanzable G origen u ->
  (∀ v, v ∈ vs -> v ∈ grafo G !!! u) ->
  ∃ st', relajar (pesos G) u d vs st = Val st' ∧
         inv_basico G origen g st' ∧ visitados st' = visitados st ∧
         (length (cola_prioridad st') <= length (cola_prioridad st) + length vs)%nat.
Proof using Hok Horigen.
  revert st. induction vs as [|v vs IH]; intros st Hb Hu Hvs; simpl.
  - exists st. split; [done|]. split; [done|]. split; [done|lia].
  - destruct (relajar_vecino_basico g u d st v Hb Hu) as (st1 & -> & Hb1 & Hv1 & Hl1).
    { apply Hvs, list_elem_of_here. }
    simpl. destruct (IH st1 Hb1 Hu) as (st2 & -> & Hb2 & Hv2 & Hl2).
    { intros y Hy. by apply Hvs, list_elem_of_further. }
    exists st2. split; [done|]. split; [done|]. split; [congruence|lia].
Qed.

Lemma inv_basico_descartar g st m cola' :
  inv_basico G origen g st -> heappop (cola_prioridad st) = Some (m, cola') ->
  inv_basico G origen g (descartar st cola').
Proof using Hok Horigen.
  intros [B1 B2 B3 B4 B5 B6] Hpop. split; simpl; auto.
  intros d v Hv. apply (B5 d). eauto using heappop_resto.
Qed.

Lemma inv_basico_visitar g st d u cola' :
  inv_basico G origen g st -> heappop (cola_prioridad st) = Some ((d, u), cola') ->
  inv_basico G origen (getitem_default g u).1 (visitar st u cola').
Proof using Hok Horigen.
  intros [B1 B2 B3 B4 B5 B6] Hpop.
  destruct (B5 d u) as [Hu _]; [eauto using heappop_elem|].
  split; simpl; auto.
  - intros x. by rewrite getitem_default_fst.
  - set_solver.
  - intros d' v Hv. apply (B5 d'). eauto using heappop_resto.
Qed.

Lemma medida_descartar st m cola' :
  heappop (cola_prioridad st) = Some (m, cola') ->
  medida G st = S (medida G (descartar st cola')).
Proof using Hok Horigen.
  intros Hpop%heappop_length. unfold medida. simpl. rewrite Hpop. lia.
Qed.

Lemma medida_visitar g st d u cola' :
  inv_basico G origen g st -> heappop (cola_prioridad st) = Some ((d, u), cola') ->
  u ∉ visitados st ->
  medida G st = (S (length cola') + length (grafo G !!! u) +
                 pendientes (grafo G) (vertices G ∖ visitados (visitar st u cola')))%nat.
Proof using Hok Horigen.
  intros Hb Hpop Hu. unfold medida.
  destruct (ib_cola _ _ _ _ Hb d u) as [Huv _]; [eauto using heappop_elem|].
  rewrite (heappop_length _ _ _ Hpop).
  rewrite (pendientes_quitar _ _ u) by set_solver. simpl.
  replace (vertices G ∖ ({[u]} ∪ visitados st))
    with (vertices G ∖ visitados st ∖ {[u]}) by set_solver.
  lia.
Qed.

(** *** The loop rule: an invariant [J] kept by both kinds of
    iteration holds when the loop ends, and the loop ends. *)

Variable J : estado -> Prop.

Hypothesis J_descartar : ∀ g st d u cola',
  inv_basico G origen g st -> J st ->
  heappop (cola_prioridad st) = Some ((d, u), cola') ->
  u ∈ visitados st -> J (descartar st cola').

Hypothesis J_relajar : ∀ g st d u cola' st2,
  inv_basico G origen g st -> J st ->
  heappop (cola_prioridad st) = Some ((d, u), cola') ->
  u ∉ visitados st -> u ≠ destino ->
  relajar (pesos G) u d (grafo G !!! u) (visitar st u cola') = Val st2 ->
  J st2.

Lemma bucle_regla fuel : ∀ g st,
  inv_basico G origen g st -> J st -> (medida G st <= fuel)%nat ->
  ∃ g' st', bucle fuel (pesos G) destino g st = (g', Val st') ∧
            (∀ x, g' !!! x = grafo G !!! x) ∧ fin_bucle G origen destino J g' st'.
Proof using All.
  induction fuel as [|fuel IH]; intros g st Hb HJ Hm.
  - exists g, st. destruct (cola_prioridad st) as [|e q] eqn:Hq.
    + unfold bucle. rewrite Hq. simpl.
      split; [done|]. split; [apply Hb|]. left. done.
    + unfold medida in Hm. rewrite Hq in Hm. simpl in Hm. lia.
  - simpl. destruct (heappop (cola_prioridad st)) as [[[d u] cola']|] eqn:Hpop.
    + case_decide as Hvis.
      * apply IH.
        -- eauto using inv_basico_descartar.
        -- eauto.
        -- rewrite (medida_descartar _ _ _ Hpop) in Hm. lia.
      * case_decide as Hdest.
        -- subst u. exists g, (visitar st destino cola').
           split; [done|]. split; [apply Hb|]. right. eauto 10.
        -- pose proof (inv_basico_visitar g st d u cola' Hb Hpop) as Hb1.
           pose proof (getitem_default_snd g u) as Hsnd.
           destruct (getitem_default g u) as [g' vecinos]. simpl in Hb1, Hsnd.
           rewrite (ib_grafo _ _ _ _ Hb) in Hsnd. subst vecinos.
           destruct (relajar_basico g' u d (grafo G !!! u) _ Hb1)
             as (st2 & Hrel & Hb2 & Hv2 & Hl2); [|done|].
           { destruct (ib_cola _ _ _ _ Hb d u) as [_ ?]; eauto using heappop_elem. }
           rewrite Hrel. apply IH; [done|eauto|].
           rewrite (medida_visitar g st d u cola' Hb Hpop Hvis) in Hm.
           unfold medida. rewrite Hv2. simpl in Hl2, Hm |- *. lia.
    + apply heappop_None in Hpop. exists g, st.
      split; [done|]. split; [apply Hb|]. left. done.
Qed.
End bucle_basico.

(** ** The main loop, for non-negative weights *)

Lemma cadena_insert pa x l v o :
  cadena pa x l -> v ∉ l -> cadena (<[v := o]> pa) x l.
Proof.
  induction 1 as [x Hx|x u l Hx _ IH]; intros Hv.
  - apply cadena_raiz. rewrite lookup_insert_ne; [done|]. set_solver.
  - apply cadena_paso with u.
    + rewrite lookup_insert_ne; [done|]. set_solver.
    + apply IH. set_solver.
Qed.

Lemma menor_true n dv :
  menor n dv = true -> ∀ c, dv = Finita c -> n < c.
Proof. intros H c ->. simpl in H. lia. Qed.

Lemma menor_false n dv :
  menor n dv = false -> ∃ c, dv = Finita c ∧ c <= n.
Proof. destruct dv as [c|]; simpl; [|done]. intros H. exists c. split; [done|lia]. Qed.

Section bucle_no_negativo.
Variables (G : GrafoRutasCisternas) (origen : Z).
Hypothesis Hok : grafo_ok G.
Hypothesis Horigen : origen ∈ vertices G.
Hypothesis Hnn : pesos_no_negativos G.

Lemma inv_dijkstra_inicial :
  inv_dijkstra G origen nada_por_relajar (estado_inicial G origen).
Proof using Hok Horigen Hnn.
  split; simpl.
  - apply lookup_insert_eq.
  - by apply lookup_gset_to_gmap_Some.
  - right. done.
  - intros d v Hv. apply list_elem_of_singleton in Hv as [= -> ->].
    exists 0. by rewrite lookup_insert_eq.
  - intros v c Hv _. apply lookup_insert_Some in Hv as [[<- [= <-]]|[_ Hv]].
    + apply list_elem_of_here.
    + apply lookup_gset_to_gmap_Some in Hv as [_ [=]].
  - set_solver.
  - set_solver.
  - intros v c Hv Hne. apply lookup_insert_Some in Hv as [[<- _]|[_ Hv]]; [done|].
    apply lookup_gset_to_gmap_Some in Hv as [_ [=]].
  - set_solver.
Qed.

Lemma inv_dijkstra_debil pend pend' st :
  (∀ x v, pend x v -> pend' x v) ->
  inv_dijkstra G origen pend st -> inv_dijkstra G origen pend' st.
Proof using Hok Horigen Hnn.
  intros Himp [I1 I2 I3 I4 I5 I6 I7 I8 I9]. split; auto.
  intros u v w Hu Hw. destruct (I7 u v w Hu Hw) as [?|?]; auto.
Qed.

Lemma inv_dijkstra_descartar st d u cola' :
  inv_dijkstra G origen nada_por_relajar st ->
  heappop (cola_prioridad st) = Some ((d, u), cola') ->
  u ∈ visitados st ->
  inv_dijkstra G origen nada_por_relajar (descartar st cola').
Proof using Hok Horigen Hnn.
  intros [I1 I2 I3 I4 I5 I6 I7 I8 I9] Hpop Hu. split; simpl; auto.
  - left. destruct I3 as [?|[Hv _]]; [done|]. rewrite Hv in Hu. set_solver.
  - intros d' v Hv. apply I4. eauto using heappop_resto.
  - intros v c Hv Hnv. eapply heappop_otro; [done|by apply I5|].
    intros [= -> ->]. done.
  - intros v Hv. destruct (I6 v Hv) as (c & Hc & Hmin). exists c.
    split; [done|]. intros d' y Hy. apply (Hmin d' y). eauto using heappop_resto.
Qed.

(** The first pop of a node carries its current label. *)
Lemma pop_etiqueta st d u cola' :
  inv_dijkstra G origen nada_por_relajar st ->
  heappop (cola_prioridad st) = Some ((d, u), cola') ->
  u ∉ visitados st ->
  distancias st !! u = Some (Finita d).
Proof using Hok Horigen Hnn.
  intros Hi Hpop Hu.
  destruct (id_cola_cota _ _ _ _ Hi d u) as (c & Hc & Hle);
    [eauto using heappop_elem|].
  pose proof (id_cola_completa _ _ _ _ Hi u c Hc Hu) as Hin.
  pose proof (heappop_min _ _ _ _ _ _ Hpop Hin).
  rewrite Hc. do 2 f_equal. lia.
Qed.

(** Every route out of [origen] either ends in a visited node whose
    label is at most its cost, or passes a labelled node that is not
    visited yet and whose label is at most its cost. *)
Lemma ruta_frontera st v p k :
  inv_dijkstra G origen nada_por_relajar st ->
  origen ∈ visitados st ->
  ruta G origen v p k ->
  (∃ y c, (y ∉ visitados st) ∧ distancias st !! y = Some (Finita c) ∧ c <= k) ∨
  (v ∈ visitados st ∧ ∃ c, distancias st !! v = Some (Finita c) ∧ c <= k).
Proof using Hok Horigen Hnn.
  intros Hi Ho. induction 1 as [|b c p k w Hr IH Hw].
  - right. split; [done|]. exists 0. split; [apply Hi|lia].
  - pose proof (Hnn _ _ Hw) as Hw0. simpl in Hw0.
    destruct IH as [(y & cy & Hy & Hcy & Hle)|(Hb & cb & Hcb & Hle)].
    + left. exists y, cy. split; [done|]. split; [done|lia].
    + destruct (id_relajado _ _ _ _ Hi b c w Hb Hw)
        as [[]|(cb' & cc & Hcb' & Hcc & Hle')].
      assert (cb' = cb) as -> by congruence.
      destruct (decide (c ∈ visitados st)).
      * right. split; [done|]. exists cc. split; [done|lia].
      * left. exists c, cc. split; [done|]. split; [done|lia].
Qed.

(** The distance popped with a node that was not visited is a lower
    bound on the cost of every route to it. *)
Lemma pop_optimo st d u cola' :
  inv_dijkstra G origen nada_por_relajar st ->
  heappop (cola_prioridad st) = Some ((d, u), cola') ->
  u ∉ visitados st ->
  ∀ p k, ruta G origen u p k -> d <= k.
Proof using Hok Horigen Hnn.
  intros Hi Hpop Hu p k Hr.
  destruct (id_inicio _ _ _ _ Hi) as [Ho|[_ Hq]].
  - destruct (ruta_frontera st u p k Hi Ho Hr)
      as [(y & c & Hy & Hc & Hle)|[? _]]; [|done].
    pose proof (id_cola_completa _ _ _ _ Hi y c Hc Hy) as Hin.
    pose proof (heappop_min _ _ _ _ _ _ Hpop Hin). lia.
  - rewrite Hq in Hpop. injection Hpop as <- <- <-.
    eauto using ruta_costo_no_negativo.
Qed.

Lemma inv_dijkstra_visitar st d u cola' :
  inv_dijkstra G origen nada_por_relajar st ->
  heappop (cola_prioridad st) = Some ((d, u), cola') ->
  u ∉ visitados st ->
  relajando G origen u d (grafo G !!! u) (visitar st u cola').
Proof using Hok Horigen Hnn.
  intros Hi Hpop Hu.
  pose proof (pop_etiqueta st d u cola' Hi Hpop Hu) as Hdu.
  destruct Hi as [I1 I2 I3 I4 I5 I6 I7 I8 I9].
  assert (Hmin : ∀ x, x ∈ visitados st ->
            ∃ c, distancias st !! x = Some (Finita c) ∧ c <= d).
  { intros x Hx. destruct (I6 x Hx) as (c & Hc & Hle). exists c.
    split; [done|]. apply (Hle d u). eauto using heappop_elem. }
  split; [split; simpl; auto|split; [|split]]; simpl.
  - destruct I3 as [?|[_ Hq]]; [left; set_solver|].
    rewrite Hq in Hpop. injection Hpop as <- <- <-. left. set_solver.
  - intros d' v Hv. apply I4. eauto using heappop_resto.
  - intros v c Hv Hnv. eapply heappop_otro; [done|apply I5; set_solver|].
    intros [= -> ->]. set_solver.
  - intros v Hv. destruct (decide (v = u)) as [->|Hne].
    + exists d. split; [done|]. intros d' y Hy.
      eapply heappop_min; [done|]. eauto using heappop_resto.
    + destruct (I6 v) as (c & Hc & Hle); [set_solver|]. exists c.
      split; [done|]. intros d' y Hy. apply (Hle d' y). eauto using heappop_resto.
  - intros x v w Hx Hw. destruct (decide (x = u)) as [->|Hne].
    + left. split; [done|]. by apply (grafo_ok_arista G) in Hw as [? _].
    + destruct (I7 x v w) as [[]|?]; [set_solver|done|]. by right.
  - intros v c Hv Hne. destruct (I8 v c Hv Hne) as (x & cx & w & ? & ? & ?).
    exists x, cx, w. split; [done|]. split; [set_solver|done].
  - intros v Hv.
    assert (Hsize : size ({[u]} ∪ visitados st) = S (size (visitados st))).
    { rewrite size_union by set_solver. by rewrite size_singleton. }
    rewrite Hsize. destruct (decide (v = u)) as [->|Hne].
    + destruct (decide (u = origen)) as [->|Hno].
      * exists [origen], 0. split; [by apply cadena_raiz|].
        split; [set_solver|]. split; [simpl; lia|].
        split; [done|apply ruta_uno].
      * destruct (I8 u d Hdu Hno) as (x & cx & w & Hpx & Hx & Hcx & Hw & ->).
        destruct (I9 x Hx) as (l & c & Hcad & Hl & Hlen & Hc & Hr).
        assert (c = cx) as -> by congruence.
        exists (u :: l), (cx + w). split; [by apply cadena_paso with x|].
        split; [|split; [simpl; lia|split; [done|]]].
        -- intros y Hy. apply elem_of_cons in Hy as [->|Hy]; [set_solver|].
           apply Hl in Hy. set_solver.
        -- simpl. by apply ruta_paso with x.
    + destruct (I9 v) as (l & c & Hcad & Hl & Hlen & Hc & Hr); [set_solver|].
      exists l, c. split; [done|]. split; [|split; [lia|done]].
      intros y Hy. apply Hl in Hy. set_solver.
  - set_solver.
  - done.
  - intros x Hx. destruct (decide (x = u)) as [->|Hne].
    + exists d. split; [done|lia].
    + apply Hmin. set_solver.
Qed.

Lemma relajando_vecino u d v vs st st' :
  relajando G origen u d (v :: vs) st ->
  relajar_vecino (pesos G) u d st v = Val st' ->
  relajando G origen u d vs st' ∧ visitados st' = visitados st.
Proof using Hok Horigen Hnn.
  intros ([I1 I2 I3 I4 I5 I6 I7 I8 I9] & Hu & Hdu & Hmin).
  unfold relajar_vecino, getitem.
  destruct (pesos G !! (u, v)) as [w|] eqn:Hw; [simpl|discriminate].
  destruct (distancias st !! v) as [dv|] eqn:Hdv; [simpl|discriminate].
  pose proof (Hnn _ _ Hw) as Hw0. simpl in Hw0.
  destruct (menor (d + w) dv) eqn:Hmenor; intros [= <-].
  - (* the label of [v] improves *)
    assert (Hv : v ∉ visitados st).
    { intros Hv. destruct (Hmin v Hv) as (c & Hc & Hle).
      rewrite Hdv in Hc. injection Hc as ->.
      pose proof (menor_true _ _ Hmenor c eq_refl). lia. }
    assert (Ho : origen ∈ visitados st).
    { destruct I3 as [?|[He _]]; [done|]. rewrite He in Hu. set_solver. }
    assert (Hlk : ∀ x, x ∈ visitados st ->
              <[v := Finita (d + w)]> (distancias st) !! x = distancias st !! x).
    { intros x Hx. apply lookup_insert_ne. set_solver. }
    split; [|done]. split; [split; simpl|split; [|split]]; simpl; auto.
    + by rewrite Hlk.
    + rewrite lookup_insert_ne; [done|]. set_solver.
    + intros d' v' Hv'. apply elem_of_cons in Hv' as [[= -> ->]|Hv'].
      * exists (d + w). rewrite lookup_insert_eq. split; [done|lia].
      * destruct (I4 d' v' Hv') as (c & Hc & Hle).
        destruct (decide (v' = v)) as [->|Hne].
        -- exists (d + w). rewrite lookup_insert_eq. split; [done|].
           rewrite Hdv in Hc. injection Hc as ->.
           pose proof (menor_true _ _ Hmenor c eq_refl). lia.
        -- exists c. by rewrite lookup_insert_ne.
    + intros v' c Hc Hnv. destruct (decide (v' = v)) as [->|Hne].
      * rewrite lookup_insert_eq in Hc. injection Hc as <-. apply list_elem_of_here.
      * rewrite lookup_insert_ne in Hc by done.
        apply list_elem_of_further. by apply I5.
    + intros x Hx. destruct (I6 x Hx) as (c & Hc & Hle).
      exists c. rewrite Hlk by done. split; [done|].
      intros d' y Hy. apply elem_of_cons in Hy as [[= -> ->]|Hy]; [|eauto].
      destruct (Hmin x Hx) as (c' & Hc' & Hle').
      assert (c' = c) as -> by congruence. lia.
    + intros x v' w' Hx Hw'. rewrite Hlk by done.
      destruct (I7 x v' w' Hx Hw') as [[-> Hin]|(cx & cv & Hcx & Hcv & Hle)].
      * apply elem_of_cons in Hin as [->|Hin]; [|by left].
        right. exists d, (d + w'). rewrite lookup_insert_eq.
        assert (w' = w) as -> by congruence. split; [done|]. split; [done|lia].
      * right. destruct (decide (v' = v)) as [->|Hne].
        -- exists cx, (d + w). rewrite lookup_insert_eq.
           split; [done|]. split; [done|].
           rewrite Hdv in Hcv. injection Hcv as ->.
           pose proof (menor_true _ _ Hmenor cv eq_refl). lia.
        -- exists cx, cv. by rewrite lookup_insert_ne.
    + intros v' c Hc Hne. destruct (decide (v' = v)) as [->|Hnv].
      * rewrite lookup_insert_eq in Hc. injection Hc as <-.
        exists u, d, w. rewrite lookup_insert_eq, Hlk by done. done.
      * rewrite lookup_insert_ne in Hc by done.
        destruct (I8 v' c Hc Hne) as (x & cx & w' & ? & ? & ? & ? & ?).
        exists x, cx, w'. rewrite lookup_insert_ne, Hlk by done. done.
    + intros x Hx. destruct (I9 x Hx) as (l & c & Hcad & Hl & Hlen & Hc & Hr).
      exists l, c. rewrite Hlk by done. split; [|done].
      apply cadena_insert; [done|]. intros Hin. by apply Hl in Hin.
    + by rewrite Hlk.
    + intros x Hx. rewrite Hlk by done. by apply Hmin.
  - (* the label of [v] stays *)
    destruct (menor_false _ _ Hmenor) as (cv & -> & Hle).
    split; [|done]. split; [split; auto|done].
    intros x v' w' Hx Hw'.
    destruct (I7 x v' w' Hx Hw') as [[-> Hin]|?]; [|by right].
    apply elem_of_cons in Hin as [->|Hin]; [|by left].
    right. exists d, cv. assert (w' = w) as -> by congruence. done.
Qed.

Lemma relajando_vecinos u d vs st st' :
  relajando G origen u d vs st ->
  relajar (pesos G) u d vs st = Val st' ->
  inv_dijkstra G origen nada_por_relajar st' ∧ visitados st' = visitados st.
Proof using Hok Horigen Hnn.
  revert st. induction vs as [|v vs IH]; intros st Hrel; simpl.
  - intros [= <-]. split; [|done]. destruct Hrel as [Hi _].
    eapply inv_dijkstra_debil; [|exact Hi].
    intros x v [_ Hv]. by apply not_elem_of_nil in Hv.
  - destruct (relajar_vecino (pesos G) u d st v) as [st1| |] eqn:H1;
      simpl; try discriminate.
    intros H2. destruct (relajando_vecino _ _ _ _ _ _ Hrel H1) as [Hrel1 Hv1].
    destruct (IH st1 Hrel1 H2) as [Hi2 Hv2]. split; [done|congruence].
Qed.
End bucle_no_negativo.

(** ** The reconstruction loop *)

Lemma reconstruir_cadena pa v l :
  cadena pa v l ->
  ∀ fuel camino, (length l <= fuel)%nat ->
  reconstruir fuel pa (Some v) camino = Val (camino ++ l).
Proof.
  induction 1 as [v Hv|v u l Hv _ IH]; intros [|fuel] camino Hlen;
    simpl in Hlen; try lia; simpl; unfold getitem; rewrite Hv; simpl.
  - by destruct fuel.
  - rewrite IH by lia. by rewrite <- app_assoc.
Qed.

(** ** Fuel is only a bound *)

Lemma bucle_mas_fuel fuel : ∀ fuel' P destino g st,
  (fuel <= fuel')%nat ->
  (bucle fuel P destino g st).2 ≠ Agotado ->
  bucle fuel' P destino g st = bucle fuel P destino g st.
Proof.
  induction fuel as [|fuel IH]; intros fuel' P destino g st Hle.
  - destruct fuel' as [|fuel']; simpl; [done|].
    destruct (heappop (cola_prioridad st)) as [[[d u] cola']|]; [|done].
    simpl. done.
  - destruct fuel' as [|fuel']; [lia|]. simpl.
    destruct (heappop (cola_prioridad st)) as [[[d u] cola']|]; [|done].
    case_decide; [apply IH; lia|].
    case_decide; [done|].
    destruct (getitem_default g u) as [g' vecinos].
    destruct (relajar P u d vecinos (visitar st u cola')); [|done|done].
    apply IH. lia.
Qed.

Lemma reconstruir_mas_fuel fuel : ∀ fuel' pa actual camino,
  (fuel <= fuel')%nat ->
  reconstruir fuel pa actual camino ≠ Agotado ->
  reconstruir fuel' pa actual camino = reconstruir fuel pa actual camino.
Proof.
  induction fuel as [|fuel IH]; intros fuel' pa [a|] camino Hle;
    destruct fuel' as [|fuel']; simpl; try done; try lia.
  unfold getitem. destruct (pa !! a) as [sig|]; simpl; [|done].
  apply IH. lia.
Qed.

Lemma dijkstra_mas_fuel fuel fuel' G origen destino :
  (fuel <= fuel')%nat ->
  (dijkstra fuel G origen destino).2 ≠ Agotado ->
  dijkstra fuel' G origen destino = dijkstra fuel G origen destino.
Proof.
  intros Hle. unfold dijkstra.
  pose proof (bucle_mas_fuel fuel fuel' (pesos G) destino (grafo G)
                (estado_inicial G origen) Hle) as Hb.
  destruct (bucle fuel (pesos G) destino (grafo G) (estado_inicial G origen))
    as [g r] eqn:Hr. simpl in Hb |- *.
  destruct r as [st| |]; simpl; intros Hna; [|by rewrite Hb|done].
  rewrite Hb by done. simpl. f_equal.
  destruct (getitem (distancias st) destino) as [[c|]| |]; simpl in *; try done.
  rewrite (reconstruir_mas_fuel fuel fuel'); [done|done|].
  intros Hag. rewrite Hag in Hna. done.
Qed.

(** ** Reading the adjacency map *)

Lemma bucle_grafo fuel : ∀ P destino g st x,
  (bucle fuel P destino g st).1 !!! x = g !!! x.
Proof.
  induction fuel as [|fuel IH]; intros P destino g st x; simpl;
    destruct (heappop (cola_prioridad st)) as [[[d u] cola']|]; try done.
  case_decide; [apply IH|]. case_decide; [done|].
  pose proof (getitem_default_fst g u x) as Hg.
  destruct (getitem_default g u) as [g' vecinos]. simpl in Hg.
  destruct (relajar P u d vecinos (visitar st u cola')); simpl; try done.
  by rewrite IH.
Qed.

Lemma dijkstra_grafo fuel G origen destino :
  let G' := (dijkstra fuel G origen destino).1 in
  vertices G' = vertices G ∧ pesos G' = pesos G ∧
  ∀ x, grafo G' !!! x = grafo G !!! x.
Proof.
  unfold dijkstra.
  pose proof (bucle_grafo fuel (pesos G) destino (grafo G) (estado_inicial G origen)) as Hg.
  destruct (bucle fuel (pesos G) destino (grafo G) (estado_inicial G origen)) as [g r].
  simpl in *. done.
Qed.

Lemma bucle_mismos_vecinos fuel : ∀ P destino g1 g2 st,
  mismos_vecinos g1 g2 ->
  (bucle fuel P destino g1 st).2 = (bucle fuel P destino g2 st).2.
Proof.
  induction fuel as [|fuel IH]; intros P destino g1 g2 st Hg; simpl;
    destruct (heappop (cola_prioridad st)) as [[[d u] cola']|]; try done.
  case_decide; [by apply IH|]. case_decide; [done|].
  pose proof (getitem_default_fst g1 u) as Hf1.
  pose proof (getitem_default_snd g1 u) as Hs1.
  pose proof (getitem_default_fst g2 u) as Hf2.
  pose proof (getitem_default_snd g2 u) as Hs2.
  destruct (getitem_default g1 u) as [g1' vs1].
  destruct (getitem_default g2 u) as [g2' vs2]. simpl in *. subst vs1 vs2.
  rewrite (Hg u P u d). 
  destruct (relajar P u d (g2 !!! u) (visitar st u cola')); simpl; try done.
  apply IH. intros x P' u' d' st'. rewrite Hf1, Hf2. apply Hg.
Qed.

Lemma dijkstra_mismos_vecinos fuel G1 G2 origen destino :
  vertices G1 = vertices G2 -> pesos G1 = pesos G2 ->
  mismos_vecinos (grafo G1) (grafo G2) ->
  (dijkstra fuel G1 origen destino).2 = (dijkstra fuel G2 origen destino).2.
Proof.
  intros Hv Hp Hg. unfold dijkstra, estado_inicial. rewrite Hv, Hp.
  pose proof (bucle_mismos_vecinos fuel (pesos G2) destino (grafo G1) (grafo G2)
    {| distancias := <[origen := Finita 0]> (gset_to_gmap Infinito (vertices G2));
       padre := gset_to_gmap None (vertices G2);
       visitados := ∅; cola_prioridad := [(0, origen)] |} Hg) as Hb.
  destruct (bucle fuel (pesos G2) destino (grafo G1) _) as [g1 r1].
  destruct (bucle fuel (pesos G2) destino (grafo G2) _) as [g2 r2].
  simpl in *. by subst r1.
Qed.

Lemma relajar_app P u d l1 l2 st :
  relajar P u d (l1 ++ l2) st = relajar P u d l1 st ≫= relajar P u d l2.
Proof.
  revert st. induction l1 as [|v l1 IH]; intros st; simpl; [done|].
  destruct (relajar_vecino P u d st v); simpl; [apply IH|done|done].
Qed.

(** Relaxing the same edge twice in a row is relaxing it once. *)
Lemma relajar_vecino_repetido P u d st v :
  relajar_vecino P u d st v ≫= (fun st' => relajar_vecino P u d st' v) =
  relajar_vecino P u d st v.
Proof.
  unfold relajar_vecino, getitem.
  destruct (P !! (u, v)) as [w|] eqn:Hw; simpl; [|done].
  destruct (distancias st !! v) as [dv|] eqn:Hdv; simpl; [|done].
  destruct (menor (d + w) dv) eqn:Hm; simpl; rewrite ?Hw; simpl.
  - rewrite lookup_insert_eq. simpl. by rewrite Z.ltb_irrefl.
  - by rewrite Hdv; simpl; rewrite Hm.
Qed.

Lemma agregar_arista_vecinos G u v w x :
  grafo (agregar_arista G u v w) !!! x =
  if decide (u = x) then grafo G !!! u ++ [v] else grafo G !!! x.
Proof.
  unfold agregar_arista.
  pose proof (getitem_default_snd (grafo G) u) as Hs.
  pose proof (getitem_default_fst (grafo G) u) as Hf.
  destruct (getitem_default (grafo G) u) as [g l]. simpl in *. subst l.
  rewrite lookup_total_insert. case_decide; [done|apply Hf].
Qed.

(** ** A whole query *)

Lemma medida_inicial G origen :
  medida G (estado_inicial G origen) = S (entradas G).
Proof.
  unfold medida, entradas. simpl.
  by replace (vertices G ∖ ∅) with (vertices G) by set_solver.
Qed.

Section consulta.
Variables (G : GrafoRutasCisternas) (origen destino : Z) (fuel : nat).
Hypothesis Hok : grafo_ok G.
Hypothesis Horigen : origen ∈ vertices G.
Hypothesis Hfuel : (S (entradas G) <= fuel)%nat.

(** For every weight table the main loop ends without an exception,
    and only nodes that a route reaches carry a finite label. *)
Lemma bucle_cualquier_peso :
  ∃ g' st', bucle fuel (pesos G) destino (grafo G) (estado_inicial G origen)
              = (g', Val st') ∧
            dom (distancias st') = vertices G ∧
            (∀ v c, distancias st' !! v = Some (Finita c) -> alcanzable G origen v).
Proof using Hok Horigen Hfuel.
  destruct (bucle_regla G origen destino Hok Horigen (fun _ => True)) with
    (fuel := fuel) (g := grafo G) (st := estado_inicial G origen)
    as (g' & st' & Hb & _ & Hfin); auto.
  - by apply inv_basico_inicial.
  - by rewrite medida_inicial.
  - exists g', st'. split; [done|].
    destruct Hfin as [(Hi & _ & _)|(st & d & cola' & Hi & _ & _ & _ & ->)];
      simpl; split; apply Hi.
Qed.

Lemma dijkstra_inalcanzable :
  destino ∈ vertices G -> ¬ alcanzable G origen destino ->
  (dijkstra fuel G origen destino).2 = Val (None, [], 0%nat).
Proof using Hok Horigen Hfuel.
  intros Hd Hna. destruct bucle_cualquier_peso as (g' & st' & Hb & Hdom & Hal).
  unfold dijkstra. rewrite Hb. simpl. unfold getitem.
  assert (is_Some (distancias st' !! destino)) as [dd Hdd].
  { apply elem_of_dom. by rewrite Hdom. }
  rewrite Hdd. simpl. destruct dd as [c|]; [|done].
  destruct Hna. eauto.
Qed.

Lemma dijkstra_destino_desconocido :
  destino ∉ vertices G ->
  (dijkstra fuel G origen destino).2 = Exc KeyError.
Proof using Hok Horigen Hfuel.
  intros Hd. destruct bucle_cualquier_peso as (g' & st' & Hb & Hdom & Hal).
  unfold dijkstra. rewrite Hb. simpl. unfold getitem.
  assert (distancias st' !! destino = None) as ->; [|done].
  apply not_elem_of_dom. by rewrite Hdom.
Qed.

Hypothesis Hnn : pesos_no_negativos G.

(** For non-negative weights the loop ends with the heap empty and
    [destino] unlabelled, or by the [break], and then the label of
    [destino] is the least cost of a route and its predecessor links
    lead back to [origen] along a route of that cost. *)
Lemma bucle_no_negativo :
  ∃ g' st', bucle fuel (pesos G) destino (grafo G) (estado_inicial G origen)
              = (g', Val st') ∧
    ((cola_prioridad st' = [] ∧ (destino ∉ visitados st') ∧
      (destino ∈ vertices G -> distancias st' !! destino = Some Infinito) ∧
      ¬ alcanzable G origen destino) ∨
     (destino ∈ visitados st' ∧
      ∃ c l, distancias st' !! destino = Some (Finita c) ∧
             cadena (padre st') destino l ∧
             (length l <= size (vertices G))%nat ∧
             ruta G origen destino (rev l) c ∧
             ∀ p k, ruta G origen destino p k -> c <= k)).
Proof using All.
  destruct (bucle_regla G origen destino Hok Horigen
              (fun st => inv_dijkstra G origen nada_por_relajar st ∧
                         destino ∉ visitados st)) with
    (fuel := fuel) (g := grafo G) (st := estado_inicial G origen)
    as (g' & st' & Hb & _ & Hfin).
  - intros g st d u cola' _ [Hi Hnd] Hpop Hu. split; [|done].
    eauto using inv_dijkstra_descartar.
  - intros g st d u cola' st2 _ [Hi Hnd] Hpop Hu Hne Hrel.
    pose proof (inv_dijkstra_visitar G origen Hok Horigen Hnn st d u cola' Hi Hpop Hu) as Hr.
    destruct (relajando_vecinos G origen Hok Horigen Hnn _ _ _ _ _ Hr Hrel) as [Hi2 Hv2].
    split; [done|]. rewrite Hv2. simpl. set_solver.
  - by apply inv_basico_inicial.
  - split; [by apply inv_dijkstra_inicial|]. simpl. set_solver.
  - by rewrite medida_inicial.
  - exists g', st'. split; [done|].
    destruct Hfin as [(Hbas & [Hi Hnd] & Hq)
                     |(st & d & cola' & Hbas & [Hi Hnd] & Hpop & _ & ->)].
    + left. split; [done|]. split; [done|].
      assert (Hfin : ∀ c, distancias st' !! destino ≠ Some (Finita c)).
      { intros c Hc. pose proof (id_cola_completa _ _ _ _ Hi _ _ Hc Hnd) as Hin.
        rewrite Hq in Hin. by apply not_elem_of_nil in Hin. }
      split.
      * intros Hd. assert (is_Some (distancias st' !! destino)) as [[c|] Hdd]; [|by destruct (Hfin c)|done].
        apply elem_of_dom. by rewrite (ib_dist _ _ _ _ Hbas).
      * intros (p & k & Hr)%alcanzable_ruta.
        destruct (id_inicio _ _ _ _ Hi) as [Ho|[_ Hq']]; [|by rewrite Hq in Hq'].
        destruct (ruta_frontera G origen Hok Horigen Hnn st' destino p k Hi Ho Hr)
          as [(y & c & Hy & Hc & _)|[? _]]; [|done].
        pose proof (id_cola_completa _ _ _ _ Hi _ _ Hc Hy) as Hin.
        rewrite Hq in Hin. by apply not_elem_of_nil in Hin.
    + right. split; [simpl; set_solver|].
      pose proof (pop_optimo G origen Hok Horigen Hnn st d destino cola' Hi Hpop Hnd) as Hopt.
      destruct (inv_dijkstra_visitar G origen Hok Horigen Hnn st d destino cola' Hi Hpop Hnd)
        as (Hi' & Hin & Hdd & _).
      destruct (id_cadena _ _ _ _ Hi' destino Hin) as (l & c & Hcad & _ & Hlen & Hc & Hr).
      assert (c = d) as -> by congruence.
      exists d, l. split; [done|]. split; [done|]. split; [|done].
      etrans; [exact Hlen|]. apply subseteq_size. simpl.
      destruct (ib_cola _ _ _ _ Hbas d destino) as [? _]; [eauto using heappop_elem|].
      pose proof (ib_visitados _ _ _ _ Hbas). set_solver.
Qed.

(** What a query returns when both nodes are known and no weight is
    negative. *)
Lemma dijkstra_no_negativo :
  destino ∈ vertices G -> (size (vertices G) <= fuel)%nat ->
  (¬ alcanzable G origen destino ∧
   (dijkstra fuel G origen destino).2 = Val (None, [], 0%nat)) ∨
  (∃ c p, (dijkstra fuel G origen destino).2 = Val (Some c, p, length p) ∧
          ruta G origen destino p c ∧
          ∀ p' k, ruta G origen destino p' k -> c <= k).
Proof using All.
  intros Hd Hfuel'.
  destruct bucle_no_negativo
    as (g' & st' & Hb & [(_ & _ & Hinf & Hna)|(_ & c & l & Hc & Hcad & Hlen & Hr & Hopt)]).
  - left. split; [done|]. unfold dijkstra. rewrite Hb. simpl.
    unfold getitem. by rewrite Hinf.
  - right. exists c, (rev l). split; [|done].
    unfold dijkstra. rewrite Hb. simpl. unfold getitem. rewrite Hc. simpl.
    rewrite (reconstruir_cadena _ _ _ Hcad); [done|lia].
Qed.
End consulta.

(** ** Queries that never enter the relaxation of a known node *)

Lemma bucle_cola_vacia fuel P destino g st :
  cola_prioridad st = [] -> bucle fuel P destino g st = (g, Val st).
Proof. intros Hq. destruct fuel; simpl; by rewrite Hq. Qed.

Lemma grafo_ok_sin_vecinos G u :
  grafo_ok G -> u ∉ vertices G -> grafo G !!! u = [].
Proof.
  intros Hok Hu. destruct (grafo G !!! u) as [|v l] eqn:Hl; [done|].
  destruct (grafo_ok_vecino G u v Hok) as [w Hw].
  { rewrite Hl. apply list_elem_of_here. }
  by apply (grafo_ok_arista G) in Hw as (_ & ? & _).
Qed.

(** The first iteration, when [origen] is not [destino]: the edges out
    of [origen] are relaxed from the initial state. *)
Lemma bucle_primera_vuelta fuel G origen destino :
  origen ≠ destino ->
  bucle (S fuel) (pesos G) destino (grafo G) (estado_inicial G origen) =
  match relajar (pesos G) origen 0 (grafo G !!! origen)
          (visitar (estado_inicial G origen) origen []) with
  | Val st2 => bucle fuel (pesos G) destino (getitem_default (grafo G) origen).1 st2
  | Exc e => ((getitem_default (grafo G) origen).1, Exc e)
  | Agotado => ((getitem_default (grafo G) origen).1, Agotado)
  end.
Proof.
  intros Hne. simpl. rewrite decide_False by set_solver.
  rewrite decide_False by done.
  pose proof (getitem_default_snd (grafo G) origen) as Hs.
  destruct (getitem_default (grafo G) origen) as [g' vecinos].
  simpl in Hs. by subst vecinos.
Qed.

(** The first iteration, when [origen] is [destino]: the [break]. *)
Lemma bucle_mismo_nodo fuel G s :
  bucle (S fuel) (pesos G) s (grafo G) (estado_inicial G s) =
  (grafo G, Val (visitar (estado_inicial G s) s [])).
Proof.
  simpl. rewrite decide_False by set_solver. by rewrite decide_True.
Qed.

Lemma dijkstra_mismo_nodo fuel G s :
  s ∈ vertices G -> (1 <= fuel)%nat ->
  (dijkstra fuel G s s).2 = Val (Some 0, [s], 1%nat).
Proof.
  intros Hs Hfuel. destruct fuel as [|fuel]; [lia|].
  unfold dijkstra. rewrite bucle_mismo_nodo. cbn -[reconstruir].
  unfold getitem. rewrite lookup_insert_eq. cbn -[reconstruir].
  assert (Hp : gset_to_gmap (None : option Z) (vertices G) !! s = Some None).
  { by apply lookup_gset_to_gmap_Some. }
  simpl. unfold getitem. rewrite Hp. simpl. by destruct fuel.
Qed.

Lemma dijkstra_mismo_nodo_desconocido fuel G s :
  s ∉ vertices G -> (1 <= fuel)%nat ->
  (dijkstra fuel G s s).2 = Exc KeyError.
Proof.
  intros Hs Hfuel. destruct fuel as [|fuel]; [lia|].
  unfold dijkstra. rewrite bucle_mismo_nodo. cbn -[reconstruir].
  unfold getitem. rewrite lookup_insert_eq. cbn -[reconstruir].
  assert (Hp : gset_to_gmap (None : option Z) (vertices G) !! s = None).
  { by apply lookup_gset_to_gmap_None. }
  simpl. unfold getitem. by rewrite Hp.
Qed.

(** An unknown [origen] has no edges: the loop pops it and stops, and
    every label but its own is still infinite. *)
Lemma bucle_origen_desconocido fuel G origen destino :
  grafo_ok G -> origen ∉ vertices G -> origen ≠ destino -> (1 <= fuel)%nat ->
  bucle fuel (pesos G) destino (grafo G) (estado_inicial G origen) =
  ((getitem_default (grafo G) origen).1,
   Val (visitar (estado_inicial G origen) origen [])).
Proof.
  intros Hok Ho Hne Hfuel. destruct fuel as [|fuel]; [lia|].
  rewrite bucle_primera_vuelta by done.
  rewrite (grafo_ok_sin_vecinos G origen Hok Ho). simpl relajar. cbv iota.
  by apply bucle_cola_vacia.
Qed.

Lemma dijkstra_origen_desconocido fuel G origen destino :
  grafo_ok G -> origen ∉ vertices G -> origen ≠ destino -> (1 <= fuel)%nat ->
  (dijkstra fuel G origen destino).2 =
  if decide (destino ∈ vertices G) then Val (None, [], 0%nat) else Exc KeyError.
Proof.
  intros Hok Ho Hne Hfuel. unfold dijkstra.
  rewrite bucle_origen_desconocido by done. simpl. unfold getitem.
  rewrite lookup_insert_ne by done. case_decide as Hd.
  - assert (gset_to_gmap Infinito (vertices G) !! destino = Some Infinito) as ->; [|done].
    by apply lookup_gset_to_gmap_Some.
  - assert (gset_to_gmap Infinito (vertices G) !! destino = None) as ->; [|done].
    by apply lookup_gset_to_gmap_None.
Qed.

Lemma aristas_de_lookup p i u v :
  p !! i = Some u -> p !! S i = Some v -> (u, v) ∈ aristas_de p.
Proof.
  revert i. induction p as [|x [|y p] IH]; intros i Hu Hv; try done.
  destruct i as [|i]; simpl in *.
  - injection Hu as ->. injection Hv as ->. apply list_elem_of_here.
  - apply list_elem_of_further. by apply (IH i).
Qed.

Lemma agregar_arista_pesos G u v w :
  pesos (agregar_arista G u v w) = <[(u, v) := w]> (pesos G).
Proof. unfold agregar_arista. by destruct (getitem_default (grafo G) u). Qed.

Lemma agregar_arista_vertices G u v w :
  vertices (agregar_arista G u v w) = {[v]} ∪ ({[u]} ∪ vertices G).
Proof. unfold agregar_arista. by destruct (getitem_default (grafo G) u). Qed.

(** The query along one edge that was inserted twice, on an object that
    holds nothing else. *)
Lemma dijkstra_tramo_repetido u v w1 w2 fuel :
  u ≠ v -> (2 <= fuel)%nat ->
  (dijkstra fuel (agregar_arista (agregar_arista init u v w1) u v w2) u v).2
  = Val (Some w2, [u; v], 2%nat).
Proof.
  intros Hne Hfuel.
  set (G2 := agregar_arista (agregar_arista init u v w1) u v w2).
  assert (Hads : grafo G2 !!! u = [v; v]).
  { unfold G2. rewrite !agregar_arista_vecinos, !decide_True by done.
    change (grafo init) with (∅ : gmap Z (list Z)).
    by rewrite lookup_total_empty. }
  assert (Hp : pesos G2 !! (u, v) = Some w2).
  { unfold G2. rewrite agregar_arista_pesos. apply lookup_insert_eq. }
  assert (Hu : u ∈ vertices G2).
  { unfold G2. rewrite !agregar_arista_vertices. set_solver. }
  assert (Hv : v ∈ vertices G2).
  { unfold G2. rewrite !agregar_arista_vertices. set_solver. }
  assert (Hdv : gset_to_gmap Infinito (vertices G2) !! v = Some Infinito).
  { by apply lookup_gset_to_gmap_Some. }
  assert (Hpu : gset_to_gmap (None : option Z) (vertices G2) !! u = Some None).
  { by apply lookup_gset_to_gmap_Some. }
  set (st1 := {| distancias := <[v := Finita w2]>
                     (<[u := Finita 0]> (gset_to_gmap Infinito (vertices G2)));
                 padre := <[v := Some u]> (gset_to_gmap None (vertices G2));
                 visitados := {[u]} ∪ ∅;
                 cola_prioridad := [(w2, v)] |}).
  assert (Hrel : relajar (pesos G2) u 0 [v; v]
                   (visitar (estado_inicial G2 u) u []) = Val st1).
  { unfold relajar, relajar_vecino, getitem. rewrite Hp. simpl.
    rewrite lookup_insert_ne by done. rewrite Hdv. simpl.
    rewrite lookup_insert_eq. simpl. by rewrite Z.ltb_irrefl. }
  assert (Hb : ∀ n g, bucle (S n) (pesos G2) v g st1
                      = (g, Val (visitar st1 v []))).
  { intros n g. simpl. rewrite decide_False by set_solver.
    by rewrite decide_True. }
  destruct fuel as [|[|fuel]]; try lia.
  unfold dijkstra. rewrite bucle_primera_vuelta by done.
  rewrite Hads, Hrel, Hb. simpl. unfold getitem.
  rewrite lookup_insert_eq. simpl.
  rewrite lookup_insert_eq. simpl.
  rewrite lookup_insert_ne by done. rewrite Hpu. simpl.
  by destruct fuel.
Qed.

Lemma cota_entradas G : (S (entradas G) <= cota G)%nat.
Proof. unfold cota. lia. Qed.

Lemma cota_vertices G : (size (vertices G) <= cota G)%nat.
Proof. unfold cota. lia. Qed.

(** ** The model at work *)

Example heappop_menor :
  heappop [(3, 1); (1, 7); (1, 2); (2, 0)] = Some ((1, 2), [(3, 1); (1, 7); (2, 0)]).
Proof. reflexivity. Qed.

Example cota_red : cota red = 76%nat.
Proof. vm_compute. reflexivity. Qed.

Example red_escenario_base :
  (dijkstra 76 red DEPOSITO PUNTO_ENTREGA).2
  = Val (Some 129, [0; 1; 2; 7; 12; 13; 18; 19; 24], 9%nat).
Proof. vm_compute. reflexivity. Qed.

Example red_sin_regreso : (dijkstra 76 red 24 0).2 = Val (None, [], 0%nat).
Proof. vm_compute. reflexivity. Qed.

Example red_destino_desconocido : (dijkstra 76 red 0 25).2 = Exc KeyError.
Proof. vm_compute. reflexivity. Qed.

Example red_sin_fuel : (dijkstra 3 red 0 24).2 = Agotado.
Proof. vm_compute. reflexivity. Qed.

Example tramo_repetido_pesos : pesos tramo_repetido !! (1, 2) = Some 3.
Proof. vm_compute. reflexivity. Qed.

Example tramo_repetido_vecinos : grafo tramo_repetido !!! 1 = [2; 2].
Proof. vm_compute. reflexivity. Qed.

Example tramo_repetido_consulta :
  (dijkstra 4 tramo_repetido 1 2).2 = Val (Some 3, [1; 2], 2%nat).
Proof. vm_compute. reflexivity. Qed.

(** A query leaves an empty adjacency list behind for a node without
    outgoing edges. *)
Example un_tramo_lectura :
  grafo un_tramo !! 2 = None ∧
  grafo (dijkstra 4 un_tramo 2 1).1 !! 2 = Some [].
Proof. split; vm_compute; reflexivity. Qed.

(** * The properties of the specification *)

(** Decides a closed, decidable statement by evaluation. *)
Ltac calcula := apply (bool_decide_unpack _); vm_compute; exact I.

(** C1. For a graph with non-negative weights and known nodes [origen]
    and [destino] with a directed route from [origen] to [destino],
    [dijkstra] returns a cost that some route attains and that no route
    undercuts: the minimum over all directed routes of the sum of the
    edge weights. *)
Theorem dijkstra_costo_minimo G origen destino fuel :
  grafo_ok G -> pesos_no_negativos G ->
  origen ∈ vertices G -> destino ∈ vertices G ->
  alcanzable G origen destino -> (cota G <= fuel)%nat ->
  ∃ c p n, (dijkstra fuel G origen destino).2 = Val (Some c, p, n) ∧
    (∃ q, es_camino G origen destino q ∧ costo_camino G q = c) ∧
    (∀ q, es_camino G origen destino q -> c <= costo_camino G q).
Proof.
  intros Hok Hnn Ho Hd Hal Hfuel.
  destruct (dijkstra_no_negativo G origen destino fuel Hok Ho) as
    [[Hna _]|(c & p & Hres & Hr & Hmin)]; auto.
  - pose proof (cota_entradas G). lia.
  - pose proof (cota_vertices G). lia.
  - done.
  - exists c, p, (length p). split; [done|]. split.
    + exists p. by apply ruta_es_camino.
    + intros q Hq. apply (Hmin q). by apply es_camino_ruta.
Qed.

Lemma dijkstra_costo_minimo_witness :
  ∃ c p n, (dijkstra (cota red) red 0 24).2 = Val (Some c, p, n) ∧
    (∃ q, es_camino red 0 24 q ∧ costo_camino red q = c) ∧
    (∀ q, es_camino red 0 24 q -> c <= costo_camino red q).
Proof.
  apply (dijkstra_costo_minimo red 0 24 (cota red)).
  - calcula.
  - calcula.
  - calcula.
  - calcula.
  - exists [0; 1; 2; 3; 4; 9; 14; 19; 24]. calcula.
  - apply le_n.
Defined.

(** C2. Under the same conditions the returned path starts at [origen],
    ends at [destino], each consecutive pair of it is an edge recorded in
    the graph (in the weight table and in the adjacency list), the
    recorded weights of those edges add up to the returned cost, and the
    returned length is the number of nodes of the path. *)
Theorem dijkstra_camino_reconstruido G origen destino fuel :
  grafo_ok G -> pesos_no_negativos G ->
  origen ∈ vertices G -> destino ∈ vertices G ->
  alcanzable G origen destino -> (cota G <= fuel)%nat ->
  ∃ c p n, (dijkstra fuel G origen destino).2 = Val (Some c, p, n) ∧
    head p = Some origen ∧ last p = Some destino ∧
    (∀ i u v, p !! i = Some u -> p !! S i = Some v ->
       is_Some (pesos G !! (u, v)) ∧ v ∈ grafo G !!! u) ∧
    costo_camino G p = c ∧ n = length p.
Proof.
  intros Hok Hnn Ho Hd Hal Hfuel.
  destruct (dijkstra_no_negativo G origen destino fuel Hok Ho) as
    [[Hna _]|(c & p & Hres & Hr & Hmin)]; auto.
  - pose proof (cota_entradas G). lia.
  - pose proof (cota_vertices G). lia.
  - done.
  - exists c, p, (length p). split; [done|].
    apply ruta_es_camino in Hr as [(Hh & Hl & Hall) Hc].
    split; [done|]. split; [done|]. split; [|done].
    intros i u v Hu Hv. rewrite Forall_forall in Hall.
    destruct (Hall (u, v)) as [w Hw]; [by apply aristas_de_lookup with i|].
    split; [by eexists|]. by apply (grafo_ok_arista G) in Hw as [? _].
Qed.

Lemma dijkstra_camino_reconstruido_witness :
  ∃ c p n, (dijkstra (cota red) red 0 24).2 = Val (Some c, p, n) ∧
    head p = Some 0 ∧ last p = Some 24 ∧
    (∀ i u v, p !! i = Some u -> p !! S i = Some v ->
       is_Some (pesos red !! (u, v)) ∧ v ∈ grafo red !!! u) ∧
    costo_camino red p = c ∧ n = length p.
Proof.
  apply (dijkstra_camino_reconstruido red 0 24 (cota red)).
  - calcula.
  - calcula.
  - calcula.
  - calcula.
  - exists [0; 5; 10; 15; 20; 21; 22; 23; 24]. calcula.
  - apply le_n.
Defined.

(** C3. When both nodes are known and no directed route leads from
    [origen] to [destino], [dijkstra] returns, as a value and not as an
    exception, the unreachable variant: cost [None], empty path,
    length 0.  This holds for every weight table. *)
Theorem dijkstra_sin_camino G origen destino fuel :
  grafo_ok G -> origen ∈ vertices G -> destino ∈ vertices G ->
  ¬ alcanzable G origen destino -> (cota G <= fuel)%nat ->
  (dijkstra fuel G origen destino).2 = Val (None, [], 0%nat).
Proof.
  intros Hok Ho Hd Hna Hfuel. apply dijkstra_inalcanzable; auto.
  pose proof (cota_entradas G). lia.
Qed.

Lemma dijkstra_sin_camino_witness :
  (dijkstra (cota un_tramo) un_tramo 2 1).2 = Val (None, [], 0%nat).
Proof.
  apply (dijkstra_sin_camino un_tramo 2 1 (cota un_tramo)).
  - calcula.
  - calcula.
  - calcula.
  - intros (p & Hh & Hl & Hall).
    destruct p as [|a [|b p]]; simpl in Hh, Hall; try discriminate.
    + simpl in Hl. congruence.
    + injection Hh as ->. apply Forall_cons in Hall as [[w Hw] _].
      change (pesos un_tramo) with (<[(1, 2) := 5]> (∅ : gmap (Z * Z) Z)) in Hw.
      rewrite lookup_insert_ne, lookup_empty in Hw; congruence.
  - apply le_n.
Defined.

(** C4. For a node [s] of the graph, [dijkstra(s, s)] returns cost 0,
    the path [[s]] and length 1. *)
Theorem dijkstra_origen_es_destino G s fuel :
  s ∈ vertices G -> (1 <= fuel)%nat ->
  (dijkstra fuel G s s).2 = Val (Some 0, [s], 1%nat).
Proof. apply dijkstra_mismo_nodo. Qed.

Lemma dijkstra_origen_es_destino_witness :
  (dijkstra 1 red 24 24).2 = Val (Some 0, [24], 1%nat).
Proof.
  apply (dijkstra_origen_es_destino red 24 1).
  - calcula.
  - apply le_n.
Defined.

(** C5. When [destino] is a known node and [origen] is not, [dijkstra]
    returns the unreachable variant and raises nothing. *)
Theorem dijkstra_origen_ausente G origen destino fuel :
  grafo_ok G -> destino ∈ vertices G -> origen ∉ vertices G ->
  (1 <= fuel)%nat ->
  (dijkstra fuel G origen destino).2 = Val (None, [], 0%nat).
Proof.
  intros Hok Hd Ho Hfuel.
  rewrite dijkstra_origen_desconocido; [by rewrite decide_True|done|done| |done].
  intros ->. done.
Qed.

Lemma dijkstra_origen_ausente_witness :
  (dijkstra 1 red 99 24).2 = Val (None, [], 0%nat).
Proof.
  apply (dijkstra_origen_ausente red 99 24 1).
  - calcula.
  - calcula.
  - calcula.
  - apply le_n.
Defined.

(** C6. After [agregar_arista(u, v, w1)] and then
    [agregar_arista(u, v, w2)] the weight recorded for [(u, v)] is [w2];
    relaxing the edge [(u, v)] computes its candidate distance with [w2];
    and every query answers as if [(u, v, w2)] alone had been inserted.
    The queries themselves use [w2]: the cost of a route counts [w2] for
    every passage of [(u, v)] and the old weights elsewhere, whatever
    [w1] was; for non-negative weights every query between known,
    connected nodes returns the least such cost along a route of that
    cost; the query from [u] to [v] returns at most [w2]; and on an
    object that held nothing before, it returns [(w2, [u, v], 2)].
    The second insertion is a plain function call: it raises nothing. *)
Theorem agregar_arista_ultima_gana G u v w1 w2 :
  let G2 := agregar_arista (agregar_arista G u v w1) u v w2 in
  pesos G2 !! (u, v) = Some w2 ∧
  (∀ d st, relajar_vecino (pesos G2) u d st v =
     dv ← getitem (distancias st) v;
     if menor (d + w2) dv then
       Val {| distancias := <[v := Finita (d + w2)]> (distancias st);
              padre := <[v := Some u]> (padre st);
              visitados := visitados st;
              cola_prioridad := heappush (cola_prioridad st) (d + w2, v) |}
     else Val st) ∧
  (∀ fuel origen destino,
     (dijkstra fuel G2 origen destino).2 =
     (dijkstra fuel (agregar_arista G u v w2) origen destino).2) ∧
  (∀ q, costo_camino G2 q =
     foldr (fun e k => (if decide (e = (u, v)) then w2 else peso G e) + k) 0
           (aristas_de q)) ∧
  (grafo_ok G -> pesos_no_negativos G -> 0 <= w2 ->
   ∀ origen destino fuel,
     origen ∈ vertices G2 -> destino ∈ vertices G2 ->
     alcanzable G2 origen destino -> (cota G2 <= fuel)%nat ->
     ∃ c p n, (dijkstra fuel G2 origen destino).2 = Val (Some c, p, n) ∧
       es_camino G2 origen destino p ∧ costo_camino G2 p = c ∧
       ∀ q, es_camino G2 origen destino q -> c <= costo_camino G2 q) ∧
  (grafo_ok G -> pesos_no_negativos G -> 0 <= w2 ->
   ∀ fuel, (cota G2 <= fuel)%nat ->
     ∃ c p n, (dijkstra fuel G2 u v).2 = Val (Some c, p, n) ∧ c <= w2) ∧
  (G = init -> u ≠ v ->
   ∀ fuel, (2 <= fuel)%nat ->
     (dijkstra fuel G2 u v).2 = Val (Some w2, [u; v], 2%nat)).
Proof.
  intros G2.
  assert (Hp : pesos G2 = pesos (agregar_arista G u v w2)).
  { unfold G2, agregar_arista.
    destruct (getitem_default (grafo G) u) as [g l]. simpl.
    destruct (getitem_default _ u) as [g' l']. simpl.
    apply insert_insert_eq. }
  assert (Hw : pesos G2 !! (u, v) = Some w2).
  { rewrite Hp. unfold agregar_arista.
    destruct (getitem_default (grafo G) u) as [g l]. simpl.
    apply lookup_insert_eq. }
  assert (Hp' : pesos G2 = <[(u, v) := w2]> (pesos G)).
  { rewrite Hp. apply agregar_arista_pesos. }
  assert (Hgeneral : grafo_ok G -> pesos_no_negativos G -> 0 <= w2 ->
            ∀ origen destino fuel,
              origen ∈ vertices G2 -> destino ∈ vertices G2 ->
              (cota G2 <= fuel)%nat ->
              (¬ alcanzable G2 origen destino ∧
               (dijkstra fuel G2 origen destino).2 = Val (None, [], 0%nat)) ∨
              (∃ c p, (dijkstra fuel G2 origen destino).2
                        = Val (Some c, p, length p) ∧
                      ruta G2 origen destino p c ∧
                      ∀ p' k, ruta G2 origen destino p' k -> c <= k)).
  { intros Hok Hnn Hw2 origen destino fuel Ho Hd Hfuel.
    pose proof (cota_entradas G2). pose proof (cota_vertices G2).
    apply dijkstra_no_negativo; auto; try lia.
    - by apply grafo_ok_agregar_arista, grafo_ok_agregar_arista.
    - unfold pesos_no_negativos. rewrite Hp'. by apply map_Forall_insert_2. }
  split; [exact Hw|]. split; [|split; [|split; [|split; [|split]]]].
  - intros d st. unfold relajar_vecino, getitem. by rewrite Hw.
  - intros fuel origen destino. apply dijkstra_mismos_vecinos; [|exact Hp|].
    + unfold G2, agregar_arista.
      destruct (getitem_default (grafo G) u) as [g l]. simpl.
      destruct (getitem_default _ u) as [g' l']. simpl. set_solver.
    + intros x P a d st. unfold G2. rewrite !agregar_arista_vecinos.
      destruct (decide (u = x)) as [_|_]; [|done].
      rewrite decide_True by done.
      rewrite (relajar_app _ _ _ (grafo G !!! u ++ [v]) [v]).
      rewrite relajar_app.
      destruct (relajar P a d (grafo G !!! u) st) as [st1| |]; simpl; try done.
      pose proof (relajar_vecino_repetido P a d st1 v) as Hrep.
      destruct (relajar_vecino P a d st1 v) as [st2| |]; simpl in *; try done.
      by rewrite Hrep.
  - intros q. unfold costo_camino.
    induction (aristas_de q) as [|e l IH]; simpl; [done|].
    rewrite IH. f_equal. unfold peso. rewrite Hp'. case_decide as He.
    + subst e. by rewrite lookup_insert_eq.
    + by rewrite lookup_insert_ne.
  - intros Hok Hnn Hw2 origen destino fuel Ho Hd Hal Hfuel.
    destruct (Hgeneral Hok Hnn Hw2 origen destino fuel Ho Hd Hfuel)
      as [[Hna _]|(c & p & Hres & Hr & Hmin)]; [done|].
    exists c, p, (length p). split; [done|].
    destruct (ruta_es_camino _ _ _ _ _ Hr) as [Hes Hc].
    split; [done|]. split; [done|].
    intros q Hq. apply (Hmin q). by apply es_camino_ruta.
  - intros Hok Hnn Hw2 fuel Hfuel.
    assert (Hu : u ∈ vertices G2).
    { unfold G2. rewrite !agregar_arista_vertices. set_solver. }
    assert (Hv : v ∈ vertices G2).
    { unfold G2. rewrite !agregar_arista_vertices. set_solver. }
    assert (Hr : ruta G2 u v ([u] ++ [v]) (0 + w2)).
    { apply ruta_paso with u; [apply ruta_uno|exact Hw]. }
    destruct (Hgeneral Hok Hnn Hw2 u v fuel Hu Hv Hfuel)
      as [[Hna _]|(c & p & Hres & _ & Hmin)].
    + destruct Hna. apply alcanzable_ruta. eauto.
    + exists c, p, (length p). split; [done|]. pose proof (Hmin _ _ Hr). lia.
  - intros -> Hne fuel Hfuel. by apply dijkstra_tramo_repetido.
Qed.

Lemma agregar_arista_ultima_gana_witness :
  pesos tramo_repetido !! (1, 2) = Some 3 ∧
  (dijkstra 2 tramo_repetido 1 2).2 = Val (Some 3, [1; 2], 2%nat) ∧
  ∃ c p n, (dijkstra (cota tramo_repetido) tramo_repetido 1 2).2
             = Val (Some c, p, n) ∧ c <= 3.
Proof.
  destruct (agregar_arista_ultima_gana init 1 2 5 3)
    as (H1 & _ & _ & _ & _ & H6 & H7).
  split; [exact H1|]. split.
  - apply H7; [reflexivity|lia|apply le_n].
  - apply H6; [calcula|calcula|lia|apply le_n].
Defined.

(** C7. On the 5x5 network of the script, [dijkstra(0, 24)] returns the
    finite cost 129 and a path from 0 to 24 whose returned length, 9, is
    its number of nodes; no directed route from 0 to 24 is cheaper, and
    the cost is at most that of the route along the top row and down the
    last column, 15+12+18+14+17+18+20+18 = 132. *)
Theorem dijkstra_red_base fuel :
  (cota red <= fuel)%nat ->
  ∃ c p n,
    (dijkstra fuel red DEPOSITO PUNTO_ENTREGA).2 = Val (Some c, p, n) ∧
    c = 129 ∧ p = [0; 1; 2; 7; 12; 13; 18; 19; 24] ∧
    head p = Some 0 ∧ last p = Some 24 ∧ n = length p ∧
    (∀ q, es_camino red 0 24 q -> c <= costo_camino red q) ∧
    es_camino red 0 24 [0; 1; 2; 3; 4; 9; 14; 19; 24] ∧
    costo_camino red [0; 1; 2; 3; 4; 9; 14; 19; 24]
      = 15 + 12 + 18 + 14 + 17 + 18 + 20 + 18 ∧
    c <= 15 + 12 + 18 + 14 + 17 + 18 + 20 + 18 ∧
    15 + 12 + 18 + 14 + 17 + 18 + 20 + 18 = 132.
Proof.
  intros Hfuel.
  assert (Hres : (dijkstra (cota red) red DEPOSITO PUNTO_ENTREGA).2
                 = Val (Some 129, [0; 1; 2; 7; 12; 13; 18; 19; 24], 9%nat)).
  { vm_compute. reflexivity. }
  exists 129, [0; 1; 2; 7; 12; 13; 18; 19; 24], 9%nat.
  split; [|split; [done|split; [done|split; [done|split; [done|split; [done|]]]]]].
  { rewrite (dijkstra_mas_fuel (cota red) fuel); [done|done|]. by rewrite Hres. }
  split; [|split; [calcula|split; [by vm_compute|split; [lia|lia]]]].
  intros q Hq%es_camino_ruta.
  destruct (dijkstra_no_negativo red DEPOSITO PUNTO_ENTREGA (cota red)) as
    [[_ Hno]|(c & p & Hc & _ & Hmin)].
  - calcula.
  - calcula.
  - apply cota_entradas.
  - calcula.
  - calcula.
  - apply cota_vertices.
  - rewrite Hres in Hno. discriminate.
  - rewrite Hres in Hc. injection Hc as <- _ _. by apply (Hmin q).
Qed.

Lemma dijkstra_red_base_witness :
  ∃ c p n,
    (dijkstra (cota red) red DEPOSITO PUNTO_ENTREGA).2 = Val (Some c, p, n) ∧
    c = 129 ∧ p = [0; 1; 2; 7; 12; 13; 18; 19; 24] ∧
    head p = Some 0 ∧ last p = Some 24 ∧ n = length p ∧
    (∀ q, es_camino red 0 24 q -> c <= costo_camino red q) ∧
    es_camino red 0 24 [0; 1; 2; 3; 4; 9; 14; 19; 24] ∧
    costo_camino red [0; 1; 2; 3; 4; 9; 14; 19; 24]
      = 15 + 12 + 18 + 14 + 17 + 18 + 20 + 18 ∧
    c <= 15 + 12 + 18 + 14 + 17 + 18 + 20 + 18 ∧
    15 + 12 + 18 + 14 + 17 + 18 + 20 + 18 = 132.
Proof. apply (dijkstra_red_base (cota red)). apply le_n. Defined.



(** C9. A second [dijkstra] call with the same nodes on the object the
    first call left behind returns what the first returned; the first
    call leaves the node set, the weight table and every adjacency list
    as they were. *)
Theorem dijkstra_repetible fuel G origen destino :
  let G' := (dijkstra fuel G origen destino).1 in
  (dijkstra fuel G' origen destino).2 = (dijkstra fuel G origen destino).2 ∧
  vertices G' = vertices G ∧ pesos G' = pesos G ∧
  (∀ x, grafo G' !!! x = grafo G !!! x).
Proof.
  intros G'. destruct (dijkstra_grafo fuel G origen destino) as (Hv & Hp & Hg).
  split; [|done]. apply dijkstra_mismos_vecinos; [done|done|].
  intros x P u d st. fold G' in Hg. by rewrite Hg.
Qed.

(** C10. When [destino] is not a known node, [dijkstra] raises
    [KeyError]: the main loop ends normally and then, if [destino] is
    not [origen], reading the label of [destino] fails, and if [destino]
    is [origen], its label is 0 and reading its predecessor fails. *)
Theorem dijkstra_destino_ausente G origen destino fuel :
  grafo_ok G -> destino ∉ vertices G -> (cota G <= fuel)%nat ->
  (dijkstra fuel G origen destino).2 = Exc KeyError ∧
  ∃ g st,
    bucle fuel (pesos G) destino (grafo G) (estado_inicial G origen) = (g, Val st) ∧
    (destino ≠ origen -> getitem (distancias st) destino = Exc KeyError) ∧
    (destino = origen ->
       getitem (distancias st) destino = Val (Finita 0) ∧
       reconstruir fuel (padre st) (Some destino) [] = Exc KeyError).
Proof.
  intros Hok Hd Hfuel.
  assert (Hfuel1 : (S (entradas G) <= fuel)%nat).
  { pose proof (cota_entradas G). lia. }
  destruct (decide (destino = origen)) as [->|Hne].
  - split; [apply dijkstra_mismo_nodo_desconocido; [done|lia]|].
    destruct fuel as [|fuel]; [lia|]. rewrite bucle_mismo_nodo.
    eexists _, _. split; [done|]. split; [done|]. intros _. split.
    + unfold getitem. simpl. by rewrite lookup_insert_eq.
    + simpl. unfold getitem.
      assert (gset_to_gmap (None : option Z) (vertices G) !! origen = None) as ->; [|done].
      by apply lookup_gset_to_gmap_None.
  - destruct (decide (origen ∈ vertices G)) as [Ho|Ho].
    + split; [by apply dijkstra_destino_desconocido|].
      destruct (bucle_cualquier_peso G origen destino fuel Hok Ho Hfuel1)
        as (g' & st' & Hb & Hdom & _).
      exists g', st'. split; [done|]. split; [|done]. intros _.
      unfold getitem.
      assert (distancias st' !! destino = None) as ->; [|done].
      apply not_elem_of_dom. by rewrite Hdom.
    + split.
      * rewrite dijkstra_origen_desconocido; [by rewrite decide_False|done|done|done|lia].
      * rewrite bucle_origen_desconocido; [|done|done|done|lia].
        eexists _, _. split; [done|]. split; [|done]. intros _.
        unfold getitem. simpl. rewrite lookup_insert_ne by done.
        assert (gset_to_gmap Infinito (vertices G) !! destino = None) as ->; [|done].
        by apply lookup_gset_to_gmap_None.
Qed.

Lemma dijkstra_destino_ausente_witness :
  (dijkstra (cota red) red 0 99).2 = Exc KeyError ∧
  ∃ g st,
    bucle (cota red) (pesos red) 99 (grafo red) (estado_inicial red 0) = (g, Val st) ∧
    (99 ≠ 0 -> getitem (distancias st) 99 = Exc KeyError) ∧
    (99 = 0 ->
       getitem (distancias st) 99 = Val (Finita 0) ∧
       reconstruir (cota red) (padre st) (Some 99) [] = Exc KeyError).
Proof.
  apply (dijkstra_destino_ausente red 0 99 (cota red)).
  - calcula.
  - calcula.
  - apply le_n.
Defined.

(** The invariant [grafo_ok] is the invariant of the class: [__init__]
    establishes it ([grafo_ok_init]), [agregar_arista] keeps it
    ([grafo_ok_agregar_arista]) and so does a query. *)
Lemma grafo_ok_dijkstra fuel G origen destino :
  grafo_ok G -> grafo_ok (dijkstra fuel G origen destino).1.
Proof.
  intros Hok. destruct (dijkstra_grafo fuel G origen destino) as (Hv & Hp & Hg).
  destruct (dijkstra fuel G origen destino).1 as [g V P]. simpl in *. subst V P.
  by apply (grafo_ok_mismo G).
Qed.

(** * Further properties of the code *)

(** ** The invariant of the class *)

(** X1. In every state an object goes through, under [__init__],
    [agregar_arista] and [dijkstra] calls in any order, the adjacency
    lists and the weight table record the same edges and both endpoints
    of every edge are known nodes. *)
Theorem accesible_grafo_ok G : accesible G -> grafo_ok G.
Proof.
  induction 1 as [|G u v w _ IH|fuel G origen destino _ IH].
  - apply grafo_ok_init.
  - by apply grafo_ok_agregar_arista.
  - by apply grafo_ok_dijkstra.
Qed.

Lemma accesible_grafo_ok_witness : grafo_ok (dijkstra 3 un_tramo 2 1).1.
Proof.
  apply (accesible_grafo_ok (dijkstra 3 un_tramo 2 1).1).
  apply accesible_dijkstra. apply accesible_agregar. apply accesible_init.
Defined.

Lemma dijkstra_pesos fuel G origen destino :
  pesos (dijkstra fuel G origen destino).1 = pesos G.
Proof. by destruct (dijkstra_grafo fuel G origen destino) as (_ & ? & _). Qed.

Lemma dijkstra_vertices fuel G origen destino :
  vertices (dijkstra fuel G origen destino).1 = vertices G.
Proof. by destruct (dijkstra_grafo fuel G origen destino) as (? & _). Qed.

(** X2. A node is known exactly when it is an endpoint of a recorded
    edge: the class has no way to hold an isolated node. *)
Theorem accesible_sin_nodos_aislados G x :
  accesible G ->
  (x ∈ vertices G <->
   ∃ y, is_Some (pesos G !! (x, y)) ∨ is_Some (pesos G !! (y, x))).
Proof.
  intros Hacc.
  assert (Hok : grafo_ok G).
  { induction Hacc; auto using grafo_ok_init, grafo_ok_agregar_arista,
      grafo_ok_dijkstra. }
  split.
  - clear Hok. induction Hacc as [|G u v w _ IH|fuel G origen destino _ IH].
    + set_solver.
    + rewrite agregar_arista_vertices, agregar_arista_pesos. intros Hx.
      assert (Hcasos : x = v ∨ x = u ∨ x ∈ vertices G) by set_solver.
      destruct Hcasos as [->|[->|Hx']].
      * exists u. right. rewrite lookup_insert_eq. by eexists.
      * exists v. left. rewrite lookup_insert_eq. by eexists.
      * destruct (IH Hx') as (y & Hy). exists y.
        rewrite !lookup_insert_is_Some. destruct Hy as [Hy|Hy]; [left|right];
          destruct (decide ((u, v) = (x, y))), (decide ((u, v) = (y, x))); auto.
    + rewrite dijkstra_vertices, dijkstra_pesos. exact IH.
  - intros (y & [[w Hw]|[w Hw]]);
      apply (grafo_ok_arista G) in Hw as (_ & ? & ?); auto.
Qed.

Lemma accesible_sin_nodos_aislados_witness :
  2 ∈ vertices un_tramo <->
  ∃ y, is_Some (pesos un_tramo !! (2, y)) ∨ is_Some (pesos un_tramo !! (y, 2)).
Proof.
  apply (accesible_sin_nodos_aislados un_tramo 2).
  apply accesible_agregar. apply accesible_init.
Defined.

(** ** When a query raises *)

Lemma dijkstra_destino_fuera G origen destino fuel :
  grafo_ok G -> destino ∉ vertices G -> (cota G <= fuel)%nat ->
  (dijkstra fuel G origen destino).2 = Exc KeyError.
Proof.
  intros Hok Hd Hfuel. pose proof (cota_entradas G) as Hc.
  destruct (decide (destino = origen)) as [->|Hne].
  - apply dijkstra_mismo_nodo_desconocido; [done|lia].
  - destruct (decide (origen ∈ vertices G)) as [Ho|Ho].
    + apply dijkstra_destino_desconocido; [done|done|lia|done].
    + rewrite dijkstra_origen_desconocido; [by rewrite decide_False|done|done|done|lia].
Qed.

Lemma relajar_vecino_padres G u d st v st' :
  u ∈ vertices G -> padres_conocidos G st ->
  relajar_vecino (pesos G) u d st v = Val st' -> padres_conocidos G st'.
Proof.
  intros Hu Hp. unfold relajar_vecino, getitem.
  destruct (pesos G !! (u, v)) as [w|]; simpl; [|done].
  destruct (distancias st !! v) as [dv|]; simpl; [|done].
  destruct (menor (d + w) dv); intros [= <-]; [|done].
  intros x y. simpl. rewrite lookup_insert_Some.
  intros [[_ [= <-]]|[_ Hxy]]; [done|by apply (Hp x)].
Qed.

Lemma relajar_padres G u d vs : ∀ st st',
  u ∈ vertices G -> padres_conocidos G st ->
  relajar (pesos G) u d vs st = Val st' -> padres_conocidos G st'.
Proof.
  induction vs as [|v vs IH]; intros st st' Hu Hp; simpl.
  - by intros [= <-].
  - destruct (relajar_vecino (pesos G) u d st v) as [st1| |] eqn:H1; simpl; try done.
    apply IH; [done|]. eauto using relajar_vecino_padres.
Qed.

Lemma reconstruir_sin_excepcion pa :
  (∀ v u, pa !! v = Some (Some u) -> u ∈ dom pa) ->
  ∀ fuel a camino e, a ∈ dom pa ->
  reconstruir fuel pa (Some a) camino ≠ Exc e.
Proof.
  intros Hpa. induction fuel as [|fuel IH]; intros a camino e Ha; simpl; [done|].
  apply elem_of_dom in Ha as [sig Hsig]. unfold getitem. rewrite Hsig. simpl.
  destruct sig as [u|].
  - apply IH. by apply (Hpa a).
  - by destruct fuel.
Qed.

(** With a known [destino] and enough fuel nothing is raised. *)
Lemma dijkstra_destino_conocido G origen destino fuel e :
  grafo_ok G -> destino ∈ vertices G -> (cota G <= fuel)%nat ->
  (dijkstra fuel G origen destino).2 ≠ Exc e.
Proof.
  intros Hok Hd Hfuel. pose proof (cota_entradas G) as Hc.
  destruct (decide (origen ∈ vertices G)) as [Ho|Ho].
  - destruct (bucle_regla G origen destino Hok Ho (padres_conocidos G)) with
      (fuel := fuel) (g := grafo G) (st := estado_inicial G origen)
      as (g' & st' & Hb & _ & Hfin).
    + intros g st d u cola' _ Hp _ _. exact Hp.
    + intros g st d u cola' st2 Hbas Hp Hpop _ _ Hrel.
      apply (relajar_padres G u d _ _ st2) in Hrel; [done| |done].
      destruct (ib_cola _ _ _ _ Hbas d u) as [? _]; eauto using heappop_elem.
    + by apply inv_basico_inicial.
    + intros v u. simpl. rewrite lookup_gset_to_gmap_Some. by intros [_ ?].
    + rewrite medida_inicial. lia.
    + assert (Hst : dom (distancias st') = vertices G ∧
                    dom (padre st') = vertices G ∧ padres_conocidos G st').
      { destruct Hfin as [(Hi & Hp & _)|(st & d & cola' & Hi & Hp & _ & _ & ->)];
          simpl; (split; [apply Hi|split; [apply Hi|exact Hp]]). }
      destruct Hst as (Hdd & Hdp & Hp).
      unfold dijkstra. rewrite Hb. simpl. unfold getitem.
      assert (is_Some (distancias st' !! destino)) as [dd ->].
      { apply elem_of_dom. by rewrite Hdd. }
      simpl. destruct dd as [c|]; [|done].
      pose proof (reconstruir_sin_excepcion (padre st')) as Hrec.
      destruct (reconstruir fuel (padre st') (Some destino) []) as [l|e'|] eqn:Hl;
        simpl; try done.
      exfalso. apply (Hrec) with (fuel := fuel) (a := destino) (camino := []) (e := e').
      * intros v u Hvu. rewrite Hdp. by apply (Hp v).
      * by rewrite Hdp.
      * exact Hl.
  - rewrite dijkstra_origen_desconocido; [by rewrite decide_True|done|done| |lia].
    intros ->. done.
Qed.

(** X3. A query raises [KeyError] exactly when [destino] is not a known
    node, whatever [origen] and the weights are. *)
Theorem dijkstra_KeyError_sii_destino_desconocido G origen destino :
  grafo_ok G ->
  ((∃ fuel, (dijkstra fuel G origen destino).2 = Exc KeyError) <->
   destino ∉ vertices G).
Proof.
  intros Hok. split.
  - intros [fuel Hexc] Hd.
    assert (Hmas : dijkstra (fuel + cota G) G origen destino
                   = dijkstra fuel G origen destino).
    { apply dijkstra_mas_fuel; [lia|]. by rewrite Hexc. }
    apply (dijkstra_destino_conocido G origen destino (fuel + cota G) KeyError);
      [done|done|lia|]. by rewrite Hmas.
  - intros Hd. exists (cota G). by apply dijkstra_destino_fuera.
Qed.

Lemma dijkstra_KeyError_sii_destino_desconocido_witness :
  (∃ fuel, (dijkstra fuel red 0 99).2 = Exc KeyError) <-> 99 ∉ vertices red.
Proof.
  apply (dijkstra_KeyError_sii_destino_desconocido red 0 99). calcula.
Defined.

(** ** The unreachable verdict, for every weight table *)

Section alcance.
Variables (G : GrafoRutasCisternas) (origen : Z).
Hypothesis Hok : grafo_ok G.
Hypothesis Horigen : origen ∈ vertices G.

Lemma inv_alcance_inicial :
  inv_alcance G origen nada_por_relajar (estado_inicial G origen).
Proof using Hok Horigen.
  split; simpl.
  - exists 0. apply lookup_insert_eq.
  - intros d v Hv. apply list_elem_of_singleton in Hv as [= -> ->].
    exists 0. apply lookup_insert_eq.
  - intros v c Hv _. apply lookup_insert_Some in Hv as [[<- _]|[_ Hv]].
    + exists 0. apply list_elem_of_here.
    + apply lookup_gset_to_gmap_Some in Hv as [_ [=]].
  - set_solver.
Qed.

Lemma inv_alcance_descartar st d u cola' :
  inv_alcance G origen nada_por_relajar st ->
  heappop (cola_prioridad st) = Some ((d, u), cola') ->
  u ∈ visitados st ->
  inv_alcance G origen nada_por_relajar (descartar st cola').
Proof using Hok Horigen.
  intros [A1 A2 A3 A4] Hpop Hu. split; simpl; auto.
  - intros d' v Hv. apply (A2 d'). eauto using heappop_resto.
  - intros v c Hc Hv. destruct (A3 v c Hc Hv) as [d' Hd']. exists d'.
    eapply heappop_otro; [done|done|]. intros [= -> ->]. done.
Qed.

Lemma inv_alcance_visitar st d u cola' :
  inv_alcance G origen nada_por_relajar st ->
  heappop (cola_prioridad st) = Some ((d, u), cola') ->
  inv_alcance G origen (por_relajar u (grafo G !!! u)) (visitar st u cola').
Proof using Hok Horigen.
  intros [A1 A2 A3 A4] Hpop. split; simpl; auto.
  - intros d' v Hv. apply (A2 d'). eauto using heappop_resto.
  - intros v c Hc Hv. destruct (A3 v c Hc) as [d' Hd']; [set_solver|]. exists d'.
    eapply heappop_otro; [done|done|]. intros [= -> ->]. set_solver.
  - intros x v w Hx Hw. destruct (decide (x = u)) as [->|Hne].
    + left. split; [done|]. by apply (grafo_ok_arista G) in Hw as [? _].
    + destruct (A4 x v w) as [[]|?]; [set_solver|done|]. by right.
Qed.

Lemma inv_alcance_vecino u d v vs st st' :
  inv_alcance G origen (por_relajar u (v :: vs)) st ->
  relajar_vecino (pesos G) u d st v = Val st' ->
  inv_alcance G origen (por_relajar u vs) st' ∧ visitados st' = visitados st.
Proof using Hok Horigen.
  intros [A1 A2 A3 A4]. unfold relajar_vecino, getitem.
  destruct (pesos G !! (u, v)) as [w|] eqn:Hw; [simpl|discriminate].
  destruct (distancias st !! v) as [dv|] eqn:Hdv; [simpl|discriminate].
  destruct (menor (d + w) dv) eqn:Hmenor; intros [= <-].
  - assert (Hfin : ∀ x, (∃ c, distancias st !! x = Some (Finita c)) ->
              ∃ c, <[v := Finita (d + w)]> (distancias st) !! x = Some (Finita c)).
    { intros x [c Hc]. destruct (decide (x = v)) as [->|Hne].
      - exists (d + w). apply lookup_insert_eq.
      - exists c. by rewrite lookup_insert_ne. }
    split; [|done]. split; simpl; auto.
    + intros d' v' Hv'. apply elem_of_cons in Hv' as [[= -> ->]|Hv'].
      * exists (d + w). apply lookup_insert_eq.
      * apply Hfin. eauto.
    + intros v' c Hc Hnv. destruct (decide (v' = v)) as [->|Hne].
      * exists (d + w). apply list_elem_of_here.
      * rewrite lookup_insert_ne in Hc by done.
        destruct (A3 v' c Hc Hnv) as [d' Hd']. exists d'.
        by apply list_elem_of_further.
    + intros x v' w' Hx Hw'.
      destruct (A4 x v' w' Hx Hw') as [[-> Hin]|Hc].
      * apply elem_of_cons in Hin as [->|Hin]; [|by left].
        right. exists (d + w). apply lookup_insert_eq.
      * right. by apply Hfin.
  - destruct (menor_false _ _ Hmenor) as (cv & -> & _).
    split; [|done]. split; auto.
    intros x v' w' Hx Hw'.
    destruct (A4 x v' w' Hx Hw') as [[-> Hin]|?]; [|by right].
    apply elem_of_cons in Hin as [->|Hin]; [|by left].
    right. by exists cv.
Qed.

Lemma inv_alcance_vecinos u d vs : ∀ st st',
  inv_alcance G origen (por_relajar u vs) st ->
  relajar (pesos G) u d vs st = Val st' ->
  inv_alcance G origen nada_por_relajar st' ∧ visitados st' = visitados st.
Proof using Hok Horigen.
  induction vs as [|v vs IH]; intros st st' Hi; simpl.
  - intros [= <-]. split; [|done]. destruct Hi as [A1 A2 A3 A4]. split; auto.
    intros x v w Hx Hw. destruct (A4 x v w Hx Hw) as [[_ Hin]|?]; [|by right].
    by apply not_elem_of_nil in Hin.
  - destruct (relajar_vecino (pesos G) u d st v) as [st1| |] eqn:H1;
      simpl; try discriminate.
    intros H2. destruct (inv_alcance_vecino _ _ _ _ _ _ Hi H1) as [Hi1 Hv1].
    destruct (IH st1 st' Hi1 H2) as [Hi2 Hv2]. split; [done|congruence].
Qed.

(** When the heap has run empty, every node a route reaches is visited. *)
Lemma ruta_visitada st v p k :
  inv_alcance G origen nada_por_relajar st ->
  cola_prioridad st = [] ->
  ruta G origen v p k -> v ∈ visitados st.
Proof using Hok Horigen.
  intros [A1 A2 A3 A4] Hq.
  assert (Hvis : ∀ x c, distancias st !! x = Some (Finita c) -> x ∈ visitados st).
  { intros x c Hc. destruct (decide (x ∈ visitados st)) as [|Hn]; [done|].
    destruct (A3 x c Hc Hn) as [d Hd]. rewrite Hq in Hd.
    by apply not_elem_of_nil in Hd. }
  induction 1 as [|b c p k w _ IH Hw].
  - destruct A1 as [c Hc]. eauto.
  - destruct (A4 b c w IH Hw) as [[]|[cc Hcc]]. eauto.
Qed.
End alcance.

(** X4. For known nodes and every weight table, negative weights
    included, a query returns the unreachable variant [(None, [], 0)]
    exactly when no directed route leads from [origen] to [destino]. *)
Theorem dijkstra_inalcanzable_sii G origen destino fuel :
  grafo_ok G -> origen ∈ vertices G -> destino ∈ vertices G ->
  (cota G <= fuel)%nat ->
  ((dijkstra fuel G origen destino).2 = Val (None, [], 0%nat) <->
   ¬ alcanzable G origen destino).
Proof.
  intros Hok Ho Hd Hfuel. pose proof (cota_entradas G) as Hc.
  split; [|intros Hna; apply dijkstra_inalcanzable; auto; lia].
  intros Hres (p & k & Hr)%alcanzable_ruta.
  destruct (bucle_regla G origen destino Hok Ho
              (fun st => inv_alcance G origen nada_por_relajar st ∧
                         destino ∉ visitados st)) with
    (fuel := fuel) (g := grafo G) (st := estado_inicial G origen)
    as (g' & st' & Hb & _ & Hfin).
  - intros g st d u cola' _ [Hi Hnd] Hpop Hu. split; [|done].
    eauto using inv_alcance_descartar.
  - intros g st d u cola' st2 _ [Hi Hnd] Hpop Hu Hne Hrel.
    pose proof (inv_alcance_visitar G origen Hok Ho st d u cola' Hi Hpop) as Hi1.
    destruct (inv_alcance_vecinos G origen Hok Ho _ _ _ _ _ Hi1 Hrel) as [Hi2 Hv2].
    split; [done|]. rewrite Hv2. simpl. set_solver.
  - by apply inv_basico_inicial.
  - split; [by apply inv_alcance_inicial|]. simpl. set_solver.
  - rewrite medida_inicial. lia.
  - destruct Hfin as [(_ & [Hi Hnd] & Hq)
                     |(st & d & cola' & _ & [Hi _] & Hpop & _ & ->)].
    + apply Hnd. eauto using ruta_visitada.
    + destruct (ia_cola _ _ _ _ Hi d destino) as [c Hc']; [eauto using heappop_elem|].
      revert Hres. unfold dijkstra. rewrite Hb. simpl. unfold getitem.
      rewrite Hc'. simpl.
      by destruct (reconstruir fuel (padre st) (Some destino) []).
Qed.

Lemma dijkstra_inalcanzable_sii_witness :
  (dijkstra (cota red) red 24 0).2 = Val (None, [], 0%nat) <->
  ¬ alcanzable red 24 0.
Proof.
  apply (dijkstra_inalcanzable_sii red 24 0 (cota red)).
  - calcula.
  - calcula.
  - calcula.
  - apply le_n.
Defined.

(** ** The returned path is simple *)

Lemma cadena_funcional pa v l1 l2 :
  cadena pa v l1 -> cadena pa v l2 -> l1 = l2.
Proof.
  intros H1. revert l2. induction H1 as [v Hv|v u l Hv _ IH]; intros l2 H2;
    inversion H2 as [v' Hv'|v' u' l' Hv' Hl']; subst; try congruence.
  assert (u' = u) as -> by congruence. f_equal. by apply IH.
Qed.

Lemma cadena_misma pa pa' v l :
  cadena pa v l -> (∀ x, x ∈ l -> pa' !! x = pa !! x) -> cadena pa' v l.
Proof.
  induction 1 as [v Hv|v u l Hv _ IH]; intros Heq.
  - apply cadena_raiz. rewrite Heq; [done|]. apply list_elem_of_here.
  - apply cadena_paso with u.
    + rewrite Heq; [done|]. apply list_elem_of_here.
    + apply IH. intros x Hx. apply Heq. by apply list_elem_of_further.
Qed.

Section camino_simple.
Variables (G : GrafoRutasCisternas) (origen : Z).
Hypothesis Hok : grafo_ok G.
Hypothesis Horigen : origen ∈ vertices G.
Hypothesis Hnn : pesos_no_negativos G.

(** Relaxing an edge never rewrites the predecessor of a visited node. *)
Lemma relajando_vecino_padre u d v vs st st' :
  relajando G origen u d (v :: vs) st ->
  relajar_vecino (pesos G) u d st v = Val st' ->
  ∀ x, x ∈ visitados st -> padre st' !! x = padre st !! x.
Proof using Hok Horigen Hnn.
  intros (_ & _ & _ & Hmin). unfold relajar_vecino, getitem.
  destruct (pesos G !! (u, v)) as [w|] eqn:Hw; [simpl|discriminate].
  destruct (distancias st !! v) as [dv|] eqn:Hdv; [simpl|discriminate].
  pose proof (Hnn _ _ Hw) as Hw0. simpl in Hw0.
  destruct (menor (d + w) dv) eqn:Hmenor; intros [= <-] x Hx; [|done].
  simpl. apply lookup_insert_ne. intros ->.
  destruct (Hmin x Hx) as (c & Hc & Hle).
  rewrite Hdv in Hc. injection Hc as ->.
  pose proof (menor_true _ _ Hmenor c eq_refl). lia.
Qed.

Lemma relajando_vecinos_padre u d vs : ∀ st st',
  relajando G origen u d vs st ->
  relajar (pesos G) u d vs st = Val st' ->
  ∀ x, x ∈ visitados st -> padre st' !! x = padre st !! x.
Proof using Hok Horigen Hnn.
  induction vs as [|v vs IH]; intros st st' Hrel; simpl.
  - by intros [= <-].
  - destruct (relajar_vecino (pesos G) u d st v) as [st1| |] eqn:H1;
      simpl; try discriminate.
    intros H2 x Hx.
    destruct (relajando_vecino G origen Hok Horigen Hnn _ _ _ _ _ _ Hrel H1)
      as [Hrel1 Hv1].
    rewrite (IH st1 st' Hrel1 H2) by (by rewrite Hv1).
    by apply (relajando_vecino_padre u d v vs st st1).
Qed.

Lemma cadenas_simples_visitar st d u cola' :
  inv_dijkstra G origen nada_por_relajar st -> cadenas_simples st ->
  heappop (cola_prioridad st) = Some ((d, u), cola') ->
  u ∉ visitados st ->
  cadenas_simples (visitar st u cola').
Proof using Hok Horigen Hnn.
  intros Hi Hs Hpop Hu v l Hv Hcad. simpl in Hv, Hcad.
  destruct (decide (v = u)) as [->|Hne]; [|apply (Hs v); [set_solver|done]].
  inversion Hcad as [? Hp|? x l' Hp Hl']; subst; [apply NoDup_singleton|].
  pose proof (pop_etiqueta G origen Hok Horigen Hnn st d u cola' Hi Hpop Hu) as Hdu.
  assert (Hno : u ≠ origen).
  { intros ->. rewrite (id_origen_padre _ _ _ _ Hi) in Hp. done. }
  destruct (id_padre _ _ _ _ Hi u d Hdu Hno) as (x' & _ & _ & Hp' & Hx & _).
  assert (x' = x) as -> by congruence.
  destruct (id_cadena _ _ _ _ Hi x Hx) as (l0 & _ & Hcad0 & Hl0 & _).
  assert (l' = l0) as -> by eauto using cadena_funcional.
  apply NoDup_cons. split; [|by apply (Hs x)].
  intros Hin. by apply Hl0 in Hin.
Qed.

Lemma cadenas_simples_relajar u d vs st st' :
  relajando G origen u d vs st -> cadenas_simples st ->
  relajar (pesos G) u d vs st = Val st' ->
  cadenas_simples st'.
Proof using Hok Horigen Hnn.
  intros Hrel Hs Hst v l Hv Hcad.
  destruct (relajando_vecinos G origen Hok Horigen Hnn _ _ _ _ _ Hrel Hst)
    as [Hi' Hv'].
  destruct (id_cadena _ _ _ _ Hi' v Hv) as (l0 & _ & Hcad0 & Hl0 & _).
  assert (l = l0) as -> by eauto using cadena_funcional.
  rewrite Hv' in Hv, Hl0. apply (Hs v); [done|].
  apply (cadena_misma (padre st')); [done|].
  intros x Hx. symmetry.
  apply (relajando_vecinos_padre u d vs st st'); auto.
Qed.
End camino_simple.

(** X5. For non-negative weights, whenever a query returns a path, no
    node occurs twice in it, it runs through known nodes only, and the
    returned length is at most the number of known nodes. *)
Theorem dijkstra_camino_simple G origen destino fuel c p n :
  grafo_ok G -> pesos_no_negativos G -> origen ∈ vertices G ->
  (cota G <= fuel)%nat ->
  (dijkstra fuel G origen destino).2 = Val (Some c, p, n) ->
  NoDup p ∧ (∀ x, x ∈ p -> x ∈ vertices G) ∧ (n <= size (vertices G))%nat.
Proof.
  intros Hok Hnn Ho Hfuel. pose proof (cota_entradas G) as Hce.
  pose proof (cota_vertices G) as Hcv.
  destruct (bucle_regla G origen destino Hok Ho
              (fun st => inv_dijkstra G origen nada_por_relajar st ∧
                         (destino ∉ visitados st) ∧ cadenas_simples st)) with
    (fuel := fuel) (g := grafo G) (st := estado_inicial G origen)
    as (g' & st' & Hb & _ & Hfin).
  - intros g st d u cola' _ (Hi & Hnd & Hs) Hpop Hu.
    split; [eauto using inv_dijkstra_descartar|]. split; [done|]. exact Hs.
  - intros g st d u cola' st2 _ (Hi & Hnd & Hs) Hpop Hu Hne Hrel.
    pose proof (inv_dijkstra_visitar G origen Hok Ho Hnn st d u cola' Hi Hpop Hu) as Hr.
    pose proof (cadenas_simples_visitar G origen Hok Ho Hnn st d u cola' Hi Hs Hpop Hu) as Hs1.
    destruct (relajando_vecinos G origen Hok Ho Hnn _ _ _ _ _ Hr Hrel) as [Hi2 Hv2].
    split; [done|]. split; [rewrite Hv2; simpl; set_solver|].
    eauto using cadenas_simples_relajar.
  - by apply inv_basico_inicial.
  - split; [by apply inv_dijkstra_inicial|]. split; [simpl; set_solver|].
    intros v l Hv. simpl in Hv. set_solver.
  - rewrite medida_inicial. lia.
  - unfold dijkstra. rewrite Hb. simpl. unfold getitem.
    destruct Hfin as [(_ & (Hi & Hnd & _) & Hq)
                     |(st & d & cola' & Hbas & (Hi & _ & Hs) & Hpop & Hnd & ->)].
    + destruct (distancias st' !! destino) as [[k|]|] eqn:Hk; simpl; try done.
      pose proof (id_cola_completa _ _ _ _ Hi _ _ Hk Hnd) as Hin.
      rewrite Hq in Hin. by apply not_elem_of_nil in Hin.
    + destruct (inv_dijkstra_visitar G origen Hok Ho Hnn st d destino cola' Hi Hpop Hnd)
        as (Hi' & Hin & Hdd & _).
      pose proof (cadenas_simples_visitar G origen Hok Ho Hnn st d destino cola'
                    Hi Hs Hpop Hnd) as Hs'.
      destruct (id_cadena _ _ _ _ Hi' destino Hin) as (l & k & Hcad & Hl & Hlen & _).
      simpl in Hdd |- *. rewrite Hdd. simpl.
      assert (Hsub : visitados (visitar st destino cola') ⊆ vertices G).
      { simpl. destruct (ib_cola _ _ _ _ Hbas d destino) as [? _];
          [eauto using heappop_elem|].
        pose proof (ib_visitados _ _ _ _ Hbas). set_solver. }
      rewrite (reconstruir_cadena _ _ _ Hcad) by
        (etrans; [exact Hlen|]; etrans; [by apply subseteq_size|lia]).
      simpl. intros [= <- <- <-]. split; [|split].
      * rewrite <- (Permutation_rev l). by apply (Hs' destino).
      * intros x Hx. apply Hsub, Hl. by rewrite (Permutation_rev l).
      * rewrite length_rev. etrans; [exact Hlen|]. by apply subseteq_size.
Qed.

Lemma dijkstra_camino_simple_witness :
  NoDup [0; 1; 2; 7; 12; 13; 18; 19; 24] ∧
  (∀ x, x ∈ [0; 1; 2; 7; 12; 13; 18; 19; 24] -> x ∈ vertices red) ∧
  (9 <= size (vertices red))%nat.
Proof.
  apply (dijkstra_camino_simple red 0 24 (cota red) 129).
  - calcula.
  - calcula.
  - calcula.
  - apply le_n.
  - vm_compute. reflexivity.
Defined.

(** ** Negative weights *)

(** A predecessor map that loops keeps the reconstruction running. *)
Lemma reconstruir_ciclo pa (C : Z -> Prop) :
  (∀ x, C x -> ∃ y, pa !! x = Some (Some y) ∧ C y) ->
  ∀ fuel a camino, C a -> reconstruir fuel pa (Some a) camino = Agotado.
Proof.
  intros HC. induction fuel as [|fuel IH]; intros a camino Ha; simpl; [done|].
  destruct (HC a Ha) as (y & Hy & HCy). unfold getitem. rewrite Hy. simpl.
  by apply IH.
Qed.

(** X6. Non-negative weights are needed for the minimum: with the edges
    0→1 (2), 0→2 (3) and 2→1 (−2) the query from 0 to 1 returns cost 2
    and path [0, 1], although the route 0, 2, 1 costs 1. *)
Theorem peso_negativo_costo_no_minimo :
  ∃ G origen destino c p n q,
    grafo_ok G ∧ origen ∈ vertices G ∧ destino ∈ vertices G ∧
    (∀ fuel, (cota G <= fuel)%nat ->
       (dijkstra fuel G origen destino).2 = Val (Some c, p, n)) ∧
    es_camino G origen destino q ∧ costo_camino G q < c.
Proof.
  exists atajo_negativo, 0, 1, 2, [0; 1], 2%nat, [0; 2; 1].
  split; [calcula|]. split; [calcula|]. split; [calcula|].
  split; [|split; [calcula|by vm_compute]].
  intros fuel Hfuel.
  assert (Hres : (dijkstra (cota atajo_negativo) atajo_negativo 0 1).2
                 = Val (Some 2, [0; 1], 2%nat)) by (vm_compute; reflexivity).
  rewrite (dijkstra_mas_fuel (cota atajo_negativo) fuel); [done|done|].
  by rewrite Hres.
Qed.

(** X7. Non-negative weights are needed for termination: with the edges
    0→1 (1), 1→0 (−5) and 1→2 (1) the node 2 is reachable from 0, yet the
    query from 0 to 2 never returns, because the predecessor links of 0
    and 1 point at each other and the walk back from 2 goes round. *)
Theorem peso_negativo_no_termina :
  ∃ G origen destino,
    grafo_ok G ∧ origen ∈ vertices G ∧ destino ∈ vertices G ∧
    alcanzable G origen destino ∧
    ∀ fuel, (dijkstra fuel G origen destino).2 = Agotado.
Proof.
  exists ciclo_negativo, 0, 2.
  split; [calcula|]. split; [calcula|]. split; [calcula|].
  split; [exists [0; 1; 2]; calcula|].
  intros fuel.
  destruct (le_lt_dec 4 fuel) as [Hle|Hlt].
  - unfold dijkstra.
    rewrite (bucle_mas_fuel 4 fuel) by (done || (vm_compute; discriminate)).
    destruct (bucle 4 (pesos ciclo_negativo) 2 (grafo ciclo_negativo)
                (estado_inicial ciclo_negativo 0)) as [g r] eqn:Hb.
    vm_compute in Hb. injection Hb as <- <-. simpl.
    rewrite (reconstruir_ciclo _ (fun x => x = 0 ∨ x = 1 ∨ x = 2)); [done| |auto].
    intros x Hx. destruct Hx as [Hx|[Hx|Hx]]; subst x;
      [exists 1|exists 0|exists 1]; split; auto; reflexivity.
  - destruct fuel as [|[|[|[|fuel]]]]; try lia; vm_compute; reflexivity.
Qed.

(** ** Adding an edge *)

Lemma ruta_mas_barata G G' a b p k :
  (∀ e w, pesos G !! e = Some w -> ∃ w', pesos G' !! e = Some w' ∧ w' <= w) ->
  ruta G a b p k -> ∃ k', ruta G' a b p k' ∧ k' <= k.
Proof.
  intros Hp. induction 1 as [|b c p k w _ (k' & Hr & Hle) Hw].
  - exists 0. split; [apply ruta_uno|lia].
  - destruct (Hp _ _ Hw) as (w' & Hw' & Hle').
    exists (k' + w'). split; [by apply ruta_paso with b|lia].
Qed.

(** X8. For non-negative weights, inserting an edge that is new, or that
    lowers the weight recorded for its pair, never raises the cost a
    query returns and never turns an answer into "unreachable". *)
Theorem agregar_arista_no_encarece G u v w origen destino fuel fuel' c p n :
  grafo_ok G -> pesos_no_negativos G -> 0 <= w ->
  (∀ w0, pesos G !! (u, v) = Some w0 -> w <= w0) ->
  origen ∈ vertices G -> destino ∈ vertices G ->
  (cota G <= fuel)%nat -> (cota (agregar_arista G u v w) <= fuel')%nat ->
  (dijkstra fuel G origen destino).2 = Val (Some c, p, n) ->
  ∃ c' p' n',
    (dijkstra fuel' (agregar_arista G u v w) origen destino).2
      = Val (Some c', p', n') ∧ c' <= c.
Proof.
  intros Hok Hnn Hw Hbaja Ho Hd Hfuel Hfuel' Hres.
  set (G' := agregar_arista G u v w) in *.
  assert (Hok' : grafo_ok G') by by apply grafo_ok_agregar_arista.
  assert (Hnn' : pesos_no_negativos G').
  { unfold pesos_no_negativos, G'. rewrite agregar_arista_pesos.
    by apply map_Forall_insert_2. }
  assert (Hv' : ∀ x, x ∈ vertices G -> x ∈ vertices G').
  { intros x Hx. unfold G'. rewrite agregar_arista_vertices. set_solver. }
  assert (Hp' : ∀ e w0, pesos G !! e = Some w0 ->
                  ∃ w', pesos G' !! e = Some w' ∧ w' <= w0).
  { intros e w0 He. unfold G'. rewrite agregar_arista_pesos.
    destruct (decide ((u, v) = e)) as [<-|Hne].
    - exists w. rewrite lookup_insert_eq. split; [done|]. by apply Hbaja.
    - exists w0. rewrite lookup_insert_ne by done. split; [done|lia]. }
  destruct (dijkstra_no_negativo G origen destino fuel Hok Ho) as
    [[_ Hnone]|(c0 & p0 & Hres0 & Hr & _)]; auto.
  { pose proof (cota_entradas G). lia. }
  { pose proof (cota_vertices G). lia. }
  { rewrite Hres in Hnone. discriminate. }
  rewrite Hres in Hres0. injection Hres0 as <- <- _.
  destruct (ruta_mas_barata G G' _ _ _ _ Hp' Hr) as (k' & Hr' & Hle).
  destruct (dijkstra_no_negativo G' origen destino fuel' Hok') as
    [[Hna _]|(c' & p' & Hres' & _ & Hmin)]; auto.
  { pose proof (cota_entradas G'). lia. }
  { pose proof (cota_vertices G'). lia. }
  { destruct Hna. apply alcanzable_ruta. eauto. }
  exists c', p', (length p'). split; [done|].
  pose proof (Hmin _ _ Hr'). lia.
Qed.

Lemma agregar_arista_no_encarece_witness :
  ∃ c' p' n',
    (dijkstra (cota (agregar_arista red 0 24 100))
       (agregar_arista red 0 24 100) 0 24).2 = Val (Some c', p', n') ∧
    c' <= 129.
Proof.
  apply (agregar_arista_no_encarece red 0 24 100 0 24 (cota red)
           (cota (agregar_arista red 0 24 100)) 129
           [0; 1; 2; 7; 12; 13; 18; 19; 24] 9%nat).
  - calcula.
  - calcula.
  - lia.
  - intros w0 Hw0. vm_compute in Hw0. discriminate.
  - calcula.
  - calcula.
  - apply le_n.
  - apply le_n.
  - vm_compute. reflexivity.
Defined.

(** ** What a returned tuple looks like, for every weight table *)

Lemma reconstruir_Val fuel pa : ∀ a camino l,
  reconstruir fuel pa (Some a) camino = Val l ->
  ∃ l', l = camino ++ l' ∧ cadena pa a l'.
Proof.
  induction fuel as [|fuel IH]; intros a camino l; simpl; [done|].
  unfold getitem. destruct (pa !! a) as [[u|]|] eqn:Ha; simpl; [| |done].
  - intros (l' & -> & Hcad)%IH. exists (a :: l').
    split; [by rewrite <- app_assoc|]. by apply cadena_paso with u.
  - destruct fuel; simpl; intros [= <-]; exists [a]; split; auto using cadena_raiz.
Qed.

Lemma inv_traza_vecino G origen u d st v st' :
  inv_traza G origen st ->
  (∃ c, distancias st !! u = Some (Finita c)) ->
  relajar_vecino (pesos G) u d st v = Val st' ->
  inv_traza G origen st' ∧ ∃ c, distancias st' !! u = Some (Finita c).
Proof.
  intros [T1 T2] Hu. unfold relajar_vecino, getitem.
  destruct (pesos G !! (u, v)) as [w|] eqn:Hw; [simpl|discriminate].
  destruct (distancias st !! v) as [dv|] eqn:Hdv; [simpl|discriminate].
  destruct (menor (d + w) dv); intros [= <-]; [|by split].
  assert (Hfin : ∀ x, (∃ c, distancias st !! x = Some (Finita c)) ->
            ∃ c, <[v := Finita (d + w)]> (distancias st) !! x = Some (Finita c)).
  { intros x [c Hc]. destruct (decide (x = v)) as [->|Hne].
    - exists (d + w). apply lookup_insert_eq.
    - exists c. by rewrite lookup_insert_ne. }
  split; [split; simpl|simpl; auto].
  - intros v' x Hx. apply lookup_insert_Some in Hx as [[<- [= <-]]|[_ Hx]].
    + split; [by eexists|auto].
    + destruct (T1 v' x Hx) as [? ?]. auto.
  - intros v' c Hc Hne. destruct (decide (v' = v)) as [->|Hnv].
    + exists u. apply lookup_insert_eq.
    + rewrite lookup_insert_ne in Hc by done. rewrite lookup_insert_ne by done.
      eauto.
Qed.

Lemma inv_traza_vecinos G origen u d vs : ∀ st st',
  inv_traza G origen st ->
  (∃ c, distancias st !! u = Some (Finita c)) ->
  relajar (pesos G) u d vs st = Val st' ->
  inv_traza G origen st'.
Proof.
  induction vs as [|v vs IH]; intros st st' Ht Hu; simpl.
  - by intros [= <-].
  - destruct (relajar_vecino (pesos G) u d st v) as [st1| |] eqn:H1;
      simpl; try discriminate.
    destruct (inv_traza_vecino _ _ _ _ _ _ _ Ht Hu H1) as [Ht1 Hu1]. eauto.
Qed.

Lemma inv_traza_inicial G origen :
  inv_traza G origen (estado_inicial G origen).
Proof.
  split; simpl.
  - intros v u Hv. apply lookup_gset_to_gmap_Some in Hv as [_ [=]].
  - intros v c Hv Hne. apply lookup_insert_Some in Hv as [[<- _]|[_ Hv]]; [done|].
    apply lookup_gset_to_gmap_Some in Hv as [_ [=]].
Qed.

(** A predecessor chain out of a labelled node is a route from [origen],
    read backwards. *)
Lemma cadena_ruta G origen st v l :
  inv_traza G origen st -> cadena (padre st) v l ->
  (∃ c, distancias st !! v = Some (Finita c)) ->
  ∃ k, ruta G origen v (rev l) k.
Proof.
  intros [T1 T2]. induction 1 as [v Hv|v u l Hv _ IH]; intros [c Hc].
  - destruct (decide (v = origen)) as [->|Hne].
    + exists 0. apply ruta_uno.
    + destruct (T2 v c Hc Hne) as [u Hu]. congruence.
  - destruct (T1 v u Hv) as [[w Hw] Hu]. destruct (IH Hu) as [k Hk].
    exists (k + w). simpl. by apply ruta_paso with u.
Qed.

(** X9. For every weight table, negative weights included, a tuple
    returned by a query is well formed: the length is the number of
    nodes of the path; with cost [None] the path is empty; with a number
    as cost the path starts at [origen], ends at [destino] and follows
    recorded edges. *)
Theorem dijkstra_tupla_bien_formada G origen destino fuel c p n :
  grafo_ok G ->
  (dijkstra fuel G origen destino).2 = Val (c, p, n) ->
  n = length p ∧
  match c with
  | Some _ => es_camino G origen destino p
  | None => p = []
  end.
Proof.
  intros Hok Hres.
  assert (Hmas : dijkstra (fuel + cota G) G origen destino
                 = dijkstra fuel G origen destino).
  { apply dijkstra_mas_fuel; [lia|]. by rewrite Hres. }
  rewrite <- Hmas in Hres. clear Hmas.
  pose proof (cota_entradas G) as Hce.
  destruct (decide (origen ∈ vertices G)) as [Ho|Ho].
  - destruct (bucle_regla G origen destino Hok Ho
                (fun st => inv_alcance G origen nada_por_relajar st ∧
                           inv_traza G origen st)) with
      (fuel := (fuel + cota G)%nat) (g := grafo G) (st := estado_inicial G origen)
      as (g' & st' & Hb & _ & Hfin).
    + intros g st d u cola' _ [Hi Ht] Hpop Hu.
      split; [eauto using inv_alcance_descartar|]. by destruct Ht.
    + intros g st d u cola' st2 _ [Hi Ht] Hpop Hu Hne Hrel.
      pose proof (inv_alcance_visitar G origen Hok Ho st d u cola' Hi Hpop) as Hi1.
      destruct (inv_alcance_vecinos G origen Hok Ho _ _ _ _ _ Hi1 Hrel) as [Hi2 _].
      split; [done|]. apply (inv_traza_vecinos G origen u d _ _ _) in Hrel; [done| |].
      * by destruct Ht.
      * apply (ia_cola _ _ _ _ Hi d u). eauto using heappop_elem.
    + by apply inv_basico_inicial.
    + split; [by apply inv_alcance_inicial|apply inv_traza_inicial].
    + rewrite medida_inicial. lia.
    + assert (Ht : inv_traza G origen st').
      { destruct Hfin as [(_ & [_ Ht] & _)|(st & d & cola' & _ & [_ Ht] & _ & _ & ->)];
          [done|by destruct Ht]. }
      revert Hres. unfold dijkstra. rewrite Hb. simpl. unfold getitem.
      destruct (distancias st' !! destino) as [[k|]|] eqn:Hk; simpl; try done.
      * destruct (reconstruir (fuel + cota G) (padre st') (Some destino) [])
          as [l| |] eqn:Hl; simpl; try done.
        intros [= <- <- <-]. split; [done|].
        apply reconstruir_Val in Hl as (l' & -> & Hcad). simpl.
        destruct (cadena_ruta G origen st' destino l' Ht Hcad) as [k' Hr]; [eauto|].
        by apply ruta_es_camino in Hr as [? _].
      * by intros [= <- <- <-].
  - revert Hres. destruct (decide (origen = destino)) as [<-|Hne].
    + rewrite dijkstra_mismo_nodo_desconocido; [done|done|lia].
    + rewrite dijkstra_origen_desconocido; [|done|done|done|lia].
      case_decide; [|done]. by intros [= <- <- <-].
Qed.

Lemma dijkstra_tupla_bien_formada_witness :
  2%nat = length [0; 1] ∧ es_camino atajo_negativo 0 1 [0; 1].
Proof.
  apply (dijkstra_tupla_bien_formada atajo_negativo 0 1 4 (Some 2) [0; 1] 2%nat).
  - calcula.
  - vm_compute. reflexivity.
Defined.

(** ** A batch of insertions *)

Lemma agregar_aristas_cons G u v w l :
  agregar_aristas G ((u, v, w) :: l) = agregar_aristas (agregar_arista G u v w) l.
Proof. reflexivity. Qed.

(** X10. After [agregar_arista] has been called for every triple of a
    list, in order, the weight recorded for a pair is the weight of the
    last triple of the list with that pair, and what it was before when
    the list has no such triple. *)
Theorem agregar_aristas_ultimo_peso G l u v :
  pesos (agregar_aristas G l) !! (u, v) =
  match last (filter (fun e : Z * Z * Z => e.1 = (u, v)) l) with
  | Some e => Some e.2
  | None => pesos G !! (u, v)
  end.
Proof.
  revert G. induction l as [|[[a b] w] l IH]; intros G; [done|].
  rewrite agregar_aristas_cons, IH, agregar_arista_pesos, filter_cons. simpl.
  case_decide as Hab.
  - injection Hab as -> ->. rewrite last_cons, lookup_insert_eq.
    by destruct (last _).
  - rewrite lookup_insert_ne by congruence. done.
Qed.

(** X11. After a batch of insertions the adjacency list of [u] is what
    it was, followed by the targets of the triples that start at [u], in
    the order of the batch and with repetitions; the known nodes are the
    old ones and the endpoints of the batch. *)
Theorem agregar_aristas_vecinos_y_vertices G l u :
  grafo (agregar_aristas G l) !!! u =
    grafo G !!! u ++ ((fun e : Z * Z * Z => e.1.2) <$>
                      filter (fun e : Z * Z * Z => e.1.1 = u) l) ∧
  vertices (agregar_aristas G l) =
    vertices G ∪ list_to_set ((fun e : Z * Z * Z => e.1.1) <$> l)
               ∪ list_to_set ((fun e : Z * Z * Z => e.1.2) <$> l).
Proof.
  revert G. induction l as [|[[a b] w] l IH]; intros G.
  - simpl. split; [by rewrite app_nil_r|set_solver].
  - rewrite agregar_aristas_cons. destruct (IH (agregar_arista G a b w)) as [-> ->].
    rewrite agregar_arista_vecinos, agregar_arista_vertices, filter_cons. simpl.
    split; [|set_solver].
    destruct (decide (a = u)) as [->|Hne]; simpl.
    + by rewrite <- app_assoc.
    + done.
Qed.

Lemma pendientes_ext g g' X :
  (∀ x, x ∈ X -> g !!! x = g' !!! x) -> pendientes g X = pendientes g' X.
Proof.
  intros Heq. unfold pendientes.
  assert (Hel : ∀ x, x ∈ elements X -> g !!! x = g' !!! x).
  { intros x Hx. apply Heq. by apply elem_of_elements. }
  induction (elements X) as [|x l IH]; [done|]. simpl.
  rewrite (Hel x) by apply list_elem_of_here. f_equal.
  apply IH. intros y Hy. by apply Hel, list_elem_of_further.
Qed.

Lemma pendientes_agregar_nodo g X y :
  (y ∉ X -> g !!! y = []) -> pendientes g ({[y]} ∪ X) = pendientes g X.
Proof.
  intros Hy. destruct (decide (y ∈ X)) as [Hin|Hnin].
  - by replace ({[y]} ∪ X) with X by set_solver.
  - unfold pendientes. rewrite elements_union_singleton by done.
    simpl. by rewrite (Hy Hnin).
Qed.

Lemma entradas_agregar_arista G u v w :
  grafo_ok G -> entradas (agregar_arista G u v w) = S (entradas G).
Proof.
  intros Hok. unfold entradas. rewrite agregar_arista_vertices.
  set (V' := {[v]} ∪ ({[u]} ∪ vertices G)).
  assert (Hu : u ∈ V') by set_solver.
  rewrite (pendientes_quitar _ V' u Hu), agregar_arista_vecinos, decide_True by done.
  rewrite (pendientes_ext _ (grafo G) (V' ∖ {[u]})).
  2:{ intros x Hx. rewrite agregar_arista_vecinos, decide_False; [done|set_solver]. }
  rewrite length_app. simpl.
  assert (HV' : pendientes (grafo G) V' = pendientes (grafo G) (vertices G)).
  { unfold V'. rewrite !pendientes_agregar_nodo; [done| |].
    - intros Hn. by apply grafo_ok_sin_vecinos.
    - intros Hn. apply grafo_ok_sin_vecinos; [done|set_solver]. }
  rewrite <- HV', (pendientes_quitar _ V' u Hu). lia.
Qed.

Lemma entradas_agregar_aristas l : ∀ G,
  grafo_ok G -> entradas (agregar_aristas G l) = (entradas G + length l)%nat.
Proof.
  induction l as [|[[a b] w] l IH]; intros G Hok; [simpl; lia|].
  rewrite agregar_aristas_cons, IH by by apply grafo_ok_agregar_arista.
  rewrite entradas_agregar_arista by done. simpl. lia.
Qed.

(** X12. On a graph built by [n] insertions the main loop of a query
    pops at most [n + 1] heap entries and then ends without an
    exception, for every weight table, negative weights included, and
    for every pair of nodes asked. *)
Theorem bucle_cota_inserciones l origen destino fuel :
  (S (length l) <= fuel)%nat ->
  let G := agregar_aristas init l in
  ∃ g st, bucle fuel (pesos G) destino (grafo G) (estado_inicial G origen)
          = (g, Val st).
Proof.
  intros Hfuel G.
  assert (Hok : grafo_ok G) by apply grafo_ok_agregar_aristas, grafo_ok_init.
  destruct (decide (origen ∈ vertices G)) as [Ho|Ho].
  - destruct (bucle_cualquier_peso G origen destino fuel Hok Ho)
      as (g' & st' & Hb & _); [|eauto].
    unfold G. rewrite entradas_agregar_aristas by apply grafo_ok_init.
    assert (entradas init = 0%nat) as -> by reflexivity. simpl. lia.
  - destruct fuel as [|fuel]; [lia|].
    destruct (decide (origen = destino)) as [<-|Hne].
    + rewrite bucle_mismo_nodo. eauto.
    + rewrite bucle_origen_desconocido; [eauto|done|done|done|lia].
Qed.

Lemma bucle_cota_inserciones_witness :
  ∃ g st, bucle 51 (pesos red) 24 (grafo red) (estado_inicial red 0) = (g, Val st).
Proof.
  apply (bucle_cota_inserciones aristas_red 0 24 51). vm_compute. lia.
Defined.

(** ** The plot *)

(** X13. The two ways the script places a node agree: for [i] and [j]
    in [range(5)] the ends of the edges of node [i * 5 + j] are drawn at
    [(j, -i)], where its marker is; and two nodes are never drawn at the
    same place. *)
Theorem posicion_nodo_de i j u u' :
  0 <= i < 5 -> 0 <= j < 5 ->
  posicion (nodo_de i j) = (j, - i) ∧ 0 <= nodo_de i j <= 24 ∧
  (posicion u = posicion u' -> u = u').
Proof.
  intros Hi Hj. unfold posicion, nodo_de. split; [|split; [lia|]].
  - assert (Hq : (i * 5 + j) `div` 5 = i).
    { symmetry. apply (Z.div_unique_pos _ _ _ j); lia. }
    assert (Hr : (i * 5 + j) `mod` 5 = j).
    { symmetry. apply (Z.mod_unique_pos _ _ i); lia. }
    by rewrite Hq, Hr.
  - intros [= Hm Hd].
    rewrite (Z.div_mod u 5), (Z.div_mod u' 5) by lia. lia.
Qed.

Lemma posicion_nodo_de_witness :
  posicion (nodo_de 4 4) = (4, - 4) ∧ 0 <= nodo_de 4 4 <= 24 ∧
  (posicion 7 = posicion 7 -> 7 = 7).
Proof. apply (posicion_nodo_de 4 4 7 7); lia. Defined.

(** ** Costs of different queries *)

Lemma ruta_concatenar G a b c p q k k' :
  ruta G a b p k -> ruta G b c q k' -> ∃ r, ruta G a c r (k + k').
Proof.
  intros Hp. induction 1 as [|c e q k' w _ [r Hr] Hw].
  - exists p. by rewrite Z.add_0_r.
  - exists (r ++ [e]). rewrite Z.add_assoc. by apply ruta_paso with c.
Qed.

(** X14. For non-negative weights the costs returned by three queries
    obey the triangle inequality: the cost from [a] to [c] is at most the
    cost from [a] to [b] plus the cost from [b] to [c]. *)
Theorem dijkstra_desigualdad_triangular G a b c fuel cab pab nab cbc pbc nbc :
  grafo_ok G -> pesos_no_negativos G ->
  a ∈ vertices G -> b ∈ vertices G -> c ∈ vertices G ->
  (cota G <= fuel)%nat ->
  (dijkstra fuel G a b).2 = Val (Some cab, pab, nab) ->
  (dijkstra fuel G b c).2 = Val (Some cbc, pbc, nbc) ->
  ∃ cac pac nac,
    (dijkstra fuel G a c).2 = Val (Some cac, pac, nac) ∧ cac <= cab + cbc.
Proof.
  intros Hok Hnn Ha Hb Hc Hfuel Hab Hbc.
  pose proof (cota_entradas G) as Hce. pose proof (cota_vertices G) as Hcv.
  destruct (dijkstra_no_negativo G a b fuel Hok Ha) as
    [[_ Hn]|(k1 & p1 & H1 & Hr1 & _)]; auto; try lia.
  { rewrite Hab in Hn. discriminate. }
  destruct (dijkstra_no_negativo G b c fuel Hok Hb) as
    [[_ Hn]|(k2 & p2 & H2 & Hr2 & _)]; auto; try lia.
  { rewrite Hbc in Hn. discriminate. }
  rewrite Hab in H1. injection H1 as <- _ _.
  rewrite Hbc in H2. injection H2 as <- _ _.
  destruct (ruta_concatenar _ _ _ _ _ _ _ _ Hr1 Hr2) as [r Hr].
  destruct (dijkstra_no_negativo G a c fuel Hok Ha) as
    [[Hna _]|(k3 & p3 & H3 & _ & Hmin)]; auto; try lia.
  { destruct Hna. apply alcanzable_ruta. eauto. }
  exists k3, p3, (length p3). split; [done|]. by apply (Hmin r).
Qed.

Lemma dijkstra_desigualdad_triangular_witness :
  ∃ cac pac nac,
    (dijkstra (cota red) red 0 24).2 = Val (Some cac, pac, nac) ∧
    cac <= 63 + 66.
Proof.
  apply (dijkstra_desigualdad_triangular red 0 12 24 (cota red)
           63 [0; 1; 2; 7; 12] 5%nat 66 [12; 13; 18; 19; 24] 5%nat).
  - calcula.
  - calcula.
  - calcula.
  - calcula.
  - calcula.
  - apply le_n.
  - vm_compute. reflexivity.
  - vm_compute. reflexivity.
Defined.

(** ** The order of the adjacency lists *)

Lemma estados_iguales_refl st : estados_iguales st st.
Proof. by repeat split. Qed.

Lemma estados_iguales_trans st1 st2 st3 :
  estados_iguales st1 st2 -> estados_iguales st2 st3 -> estados_iguales st1 st3.
Proof.
  intros (? & ? & ? & ?) (? & ? & ? & ?).
  repeat split; try congruence. by etrans.
Qed.

Lemma resultados_iguales_refl r : resultados_iguales r r.
Proof. destruct r; simpl; auto using estados_iguales_refl. Qed.

Lemma resultados_iguales_trans r1 r2 r3 :
  resultados_iguales r1 r2 -> resultados_iguales r2 r3 -> resultados_iguales r1 r3.
Proof.
  destruct r1, r2, r3; simpl; try done; try congruence.
  apply estados_iguales_trans.
Qed.

Lemma resultados_iguales_ligar r1 r2 (f : estado -> resultado estado) :
  resultados_iguales r1 r2 ->
  (∀ st1 st2, estados_iguales st1 st2 -> resultados_iguales (f st1) (f st2)) ->
  resultados_iguales (r1 ≫= f) (r2 ≫= f).
Proof. destruct r1, r2; simpl; try done. intros H Hf. by apply Hf. Qed.

Lemma relajar_vecino_iguales P u d v st1 st2 :
  estados_iguales st1 st2 ->
  resultados_iguales (relajar_vecino P u d st1 v) (relajar_vecino P u d st2 v).
Proof.
  intros (Hd & Hp & Hv & Hq). unfold relajar_vecino, getitem. rewrite Hd.
  destruct (P !! (u, v)) as [w|]; simpl; [|done].
  destruct (distancias st2 !! v) as [dv|]; simpl; [|done].
  destruct (menor (d + w) dv); simpl; [|done].
  unfold estados_iguales, heappush. simpl. rewrite Hp, Hv.
  split; [done|]. split; [done|]. split; [done|]. by apply perm_skip.
Qed.

Lemma relajar_iguales P u d vs : ∀ st1 st2,
  estados_iguales st1 st2 ->
  resultados_iguales (relajar P u d vs st1) (relajar P u d vs st2).
Proof.
  induction vs as [|v vs IH]; intros st1 st2 Heq; simpl; [done|].
  apply resultados_iguales_ligar; [by apply relajar_vecino_iguales|exact IH].
Qed.

(** Relaxing two edges out of the same node in either order gives the
    same labels and predecessors and the same heap entries. *)
Lemma relajar_vecino_conmuta P u d st v1 v2 :
  resultados_iguales
    (relajar_vecino P u d st v1 ≫= fun st' => relajar_vecino P u d st' v2)
    (relajar_vecino P u d st v2 ≫= fun st' => relajar_vecino P u d st' v1).
Proof.
  destruct (decide (v1 = v2)) as [->|Hne]; [apply resultados_iguales_refl|].
  unfold relajar_vecino, getitem.
  destruct (P !! (u, v1)) as [w1|] eqn:H1, (P !! (u, v2)) as [w2|] eqn:H2,
    (distancias st !! v1) as [d1|] eqn:Hd1, (distancias st !! v2) as [d2|] eqn:Hd2;
    simpl; rewrite ?H1, ?H2; simpl; try done;
    try (destruct (menor (d + w1) d1) eqn:Hm1; simpl);
    try (destruct (menor (d + w2) d2) eqn:Hm2; simpl);
    rewrite ?H1, ?H2; simpl;
    rewrite ?lookup_insert_ne by done; rewrite ?Hd1, ?Hd2; simpl;
    rewrite ?Hm1, ?Hm2; simpl; try done; try apply estados_iguales_refl.
  unfold estados_iguales, heappush. simpl.
  split; [by apply insert_insert_ne|]. split; [by apply insert_insert_ne|].
  split; [done|apply perm_swap].
Qed.

Lemma relajar_perm P u d vs1 vs2 :
  vs1 ≡ₚ vs2 ->
  ∀ st, resultados_iguales (relajar P u d vs1 st) (relajar P u d vs2 st).
Proof.
  induction 1 as [|x l l' _ IH|x y l|l l' l'' _ IH1 _ IH2]; intros st.
  - apply resultados_iguales_refl.
  - simpl. destruct (relajar_vecino P u d st x); simpl; auto.
  - assert (Hab : ∀ a b, relajar P u d (a :: b :: l) st =
              (relajar_vecino P u d st a ≫= fun s => relajar_vecino P u d s b)
              ≫= relajar P u d l).
    { intros a b. simpl. by destruct (relajar_vecino P u d st a). }
    rewrite !Hab.
    apply resultados_iguales_ligar;
      [apply relajar_vecino_conmuta|apply relajar_iguales].
  - eapply resultados_iguales_trans; [apply IH1|apply IH2].
Qed.

Lemma tupla_le_antisim a b :
  tupla_le a b = true -> tupla_le b a = true -> a = b.
Proof.
  unfold tupla_le. destruct a as [a1 a2], b as [b1 b2]; simpl.
  rewrite !orb_true_iff, !andb_true_iff.
  rewrite !Z.ltb_lt, !Z.eqb_eq, !Z.leb_le. intros. f_equal; lia.
Qed.

(** What [heappop] returns depends on the contents of the heap only. *)
Lemma heappop_perm q1 q2 m1 r1 :
  q1 ≡ₚ q2 -> heappop q1 = Some (m1, r1) ->
  ∃ r2, heappop q2 = Some (m1, r2) ∧ r1 ≡ₚ r2.
Proof.
  intros Hq H1. destruct (heappop q2) as [[m2 r2]|] eqn:H2.
  - destruct (heappop_Some _ _ _ H1) as [Hp1 Hall1].
    destruct (heappop_Some _ _ _ H2) as [Hp2 Hall2].
    rewrite Forall_forall in Hall1, Hall2.
    assert (m1 = m2) as <-.
    { apply tupla_le_antisim.
      - apply Hall1. rewrite Hq, Hp2. apply list_elem_of_here.
      - apply Hall2. rewrite <- Hq, Hp1. apply list_elem_of_here. }
    exists r2. split; [done|]. apply (Permutation_cons_inv (a := m1)).
    by rewrite <- Hp1, <- Hp2.
  - apply heappop_None in H2. subst q2. apply Permutation_nil_r in Hq. by subst q1.
Qed.

Lemma bucle_perm fuel P destino : ∀ g1 g2 st1 st2,
  (∀ x, g1 !!! x ≡ₚ g2 !!! x) -> estados_iguales st1 st2 ->
  resultados_iguales (bucle fuel P destino g1 st1).2 (bucle fuel P destino g2 st2).2.
Proof.
  induction fuel as [|fuel IH]; intros g1 g2 st1 st2 Hg (Hd & Hp & Hv & Hq).
  - simpl. destruct (heappop (cola_prioridad st1)) as [[[d u] r1]|] eqn:H1.
    + destruct (heappop_perm _ _ _ _ Hq H1) as (r2 & -> & _). done.
    + apply heappop_None in H1.
      assert (H2 : cola_prioridad st2 = []).
      { rewrite H1 in Hq. symmetry. by apply Permutation_nil_l. }
      rewrite H2. simpl. split; [done|]. split; [done|]. split; [done|].
      by rewrite H1, H2.
  - simpl. destruct (heappop (cola_prioridad st1)) as [[[d u] r1]|] eqn:H1.
    + destruct (heappop_perm _ _ _ _ Hq H1) as (r2 & -> & Hr).
      rewrite <- Hv. case_decide.
      * apply IH; [done|]. by repeat split.
      * assert (Hvis : estados_iguales (visitar st1 u r1) (visitar st2 u r2)).
        { repeat split; simpl; congruence || done. }
        case_decide; [done|].
        pose proof (getitem_default_fst g1 u) as Hf1.
        pose proof (getitem_default_snd g1 u) as Hs1.
        pose proof (getitem_default_fst g2 u) as Hf2.
        pose proof (getitem_default_snd g2 u) as Hs2.
        destruct (getitem_default g1 u) as [g1' vs1].
        destruct (getitem_default g2 u) as [g2' vs2]. simpl in *. subst vs1 vs2.
        assert (Hrel : resultados_iguales
                  (relajar P u d (g1 !!! u) (visitar st1 u r1))
                  (relajar P u d (g2 !!! u) (visitar st2 u r2))).
        { apply resultados_iguales_trans with
            (relajar P u d (g2 !!! u) (visitar st1 u r1));
            [by apply relajar_perm|by apply relajar_iguales]. }
        destruct (relajar P u d (g1 !!! u) (visitar st1 u r1)) as [s1| |];
          destruct (relajar P u d (g2 !!! u) (visitar st2 u r2)) as [s2| |];
          simpl in *; try done.
        apply IH; [|done]. intros x. by rewrite Hf1, Hf2.
    + apply heappop_None in H1.
      assert (H2 : cola_prioridad st2 = []).
      { rewrite H1 in Hq. symmetry. by apply Permutation_nil_l. }
      rewrite H2. simpl. split; [done|]. split; [done|]. split; [done|].
      by rewrite H1, H2.
Qed.

Lemma dijkstra_mismas_aristas fuel G1 G2 origen destino :
  mismas_aristas G1 G2 ->
  (dijkstra fuel G1 origen destino).2 = (dijkstra fuel G2 origen destino).2.
Proof.
  intros (Hv & Hp & Hg). unfold dijkstra, estado_inicial. rewrite Hv, Hp.
  pose proof (bucle_perm fuel (pesos G2) destino (grafo G1) (grafo G2)
    {| distancias := <[origen := Finita 0]> (gset_to_gmap Infinito (vertices G2));
       padre := gset_to_gmap None (vertices G2);
       visitados := ∅; cola_prioridad := [(0, origen)] |} _ Hg
    (estados_iguales_refl _)) as Hb.
  destruct (bucle fuel (pesos G2) destino (grafo G1) _) as [g1 r1].
  destruct (bucle fuel (pesos G2) destino (grafo G2) _) as [g2 r2].
  simpl in *. destruct r1 as [s1| |], r2 as [s2| |]; simpl in *; try done.
  - destruct Hb as (-> & -> & _). done.
  - by subst.
Qed.

Lemma mismas_aristas_refl G : mismas_aristas G G.
Proof. by repeat split. Qed.

Lemma mismas_aristas_trans G1 G2 G3 :
  mismas_aristas G1 G2 -> mismas_aristas G2 G3 -> mismas_aristas G1 G3.
Proof.
  intros (? & ? & H12) (? & ? & H23). repeat split; try congruence.
  intros x. by rewrite H12.
Qed.

Lemma mismas_aristas_agregar_arista G1 G2 u v w :
  mismas_aristas G1 G2 ->
  mismas_aristas (agregar_arista G1 u v w) (agregar_arista G2 u v w).
Proof.
  intros (Hv & Hp & Hg). split; [|split].
  - rewrite !agregar_arista_vertices. by rewrite Hv.
  - rewrite !agregar_arista_pesos. by rewrite Hp.
  - intros x. rewrite !agregar_arista_vecinos. case_decide; [|done]. by rewrite Hg.
Qed.

Lemma mismas_aristas_agregar_aristas l : ∀ G1 G2,
  mismas_aristas G1 G2 ->
  mismas_aristas (agregar_aristas G1 l) (agregar_aristas G2 l).
Proof.
  induction l as [|[[u v] w] l IH]; intros G1 G2 H; [done|].
  rewrite !agregar_aristas_cons. by apply IH, mismas_aristas_agregar_arista.
Qed.

Lemma mismas_aristas_intercambio G u v w u' v' w' :
  (u, v) ≠ (u', v') ->
  mismas_aristas (agregar_arista (agregar_arista G u v w) u' v' w')
                 (agregar_arista (agregar_arista G u' v' w') u v w).
Proof.
  intros Hne. split; [|split].
  - rewrite !agregar_arista_vertices. set_solver.
  - rewrite !agregar_arista_pesos. by apply insert_insert_ne.
  - intros x. rewrite !agregar_arista_vecinos.
    repeat case_decide; subst; try done.
    rewrite <- !app_assoc. apply Permutation_app_head, perm_swap.
Qed.

Lemma mismas_aristas_perm l1 l2 :
  l1 ≡ₚ l2 -> NoDup l1.*1 ->
  ∀ G, mismas_aristas (agregar_aristas G l1) (agregar_aristas G l2).
Proof.
  induction 1 as [|[[u v] w] l l' _ IH|[[u v] w] [[u' v'] w'] l
                 |l l' l'' H1 IH1 _ IH2]; intros Hnd G.
  - apply mismas_aristas_refl.
  - rewrite !agregar_aristas_cons. apply IH.
    rewrite fmap_cons in Hnd. by apply NoDup_cons in Hnd as [_ ?].
  - rewrite !agregar_aristas_cons.
    apply mismas_aristas_agregar_aristas, mismas_aristas_intercambio.
    rewrite !fmap_cons in Hnd. apply NoDup_cons in Hnd as [Hnin _].
    simpl in Hnin. intros Heq. apply Hnin. rewrite Heq. apply list_elem_of_here.
  - eapply mismas_aristas_trans; [by apply IH1|]. apply IH2.
    by rewrite <- H1.
Qed.

(** X15. The answers do not depend on the order of a batch of
    insertions: when the pairs of the batch are pairwise distinct,
    inserting the same triples in another order gives an object on which
    every query returns the same result. *)
Theorem agregar_aristas_orden l1 l2 G fuel origen destino :
  l1 ≡ₚ l2 -> NoDup l1.*1 ->
  (dijkstra fuel (agregar_aristas G l1) origen destino).2 =
  (dijkstra fuel (agregar_aristas G l2) origen destino).2.
Proof.
  intros Hp Hnd. by apply dijkstra_mismas_aristas, mismas_aristas_perm.
Qed.

Lemma agregar_aristas_orden_witness :
  (dijkstra 4 (agregar_aristas init [(0, 1, 2); (0, 2, 3); (2, 1, -2)]) 0 1).2 =
  (dijkstra 4 (agregar_aristas init [(2, 1, -2); (0, 2, 3); (0, 1, 2)]) 0 1).2.
Proof.
  apply (agregar_aristas_orden [(0, 1, 2); (0, 2, 3); (2, 1, -2)]
           [(2, 1, -2); (0, 2, 3); (0, 1, 2)] init 4 0 1).
  - apply (Permutation_rev [(0, 1, 2); (0, 2, 3); (2, 1, -2)]).
  - apply (bool_decide_unpack _). vm_compute. exact I.
Defined.

(** ** Every stop of the returned path is reached at least cost *)

Lemma cadena_sufijo pa v l : cadena pa v l ->
  ∀ l1 x l2, l = l1 ++ x :: l2 -> cadena pa x (x :: l2).
Proof.
  induction 1 as [v Hv|v u l Hv Hcad IH]; intros l1 x l2 Heq.
  - destruct l1 as [|y [|z l1]]; simplify_eq/=. by apply cadena_raiz.
  - destruct l1 as [|y l1]; simplify_eq/=.
    + by apply cadena_paso with u.
    + by apply (IH l1).
Qed.

Section etiquetas.
Variables (G : GrafoRutasCisternas) (origen : Z).
Hypothesis Hok : grafo_ok G.
Hypothesis Horigen : origen ∈ vertices G.
Hypothesis Hnn : pesos_no_negativos G.

(** Relaxing an edge never rewrites the label of a visited node. *)
Lemma relajando_vecino_dist u d v vs st st' :
  relajando G origen u d (v :: vs) st ->
  relajar_vecino (pesos G) u d st v = Val st' ->
  ∀ x, x ∈ visitados st -> distancias st' !! x = distancias st !! x.
Proof using Hok Horigen Hnn.
  intros (_ & _ & _ & Hmin). unfold relajar_vecino, getitem.
  destruct (pesos G !! (u, v)) as [w|] eqn:Hw; [simpl|discriminate].
  destruct (distancias st !! v) as [dv|] eqn:Hdv; [simpl|discriminate].
  pose proof (Hnn _ _ Hw) as Hw0. simpl in Hw0.
  destruct (menor (d + w) dv) eqn:Hmenor; intros [= <-] x Hx; [|done].
  simpl. apply lookup_insert_ne. intros ->.
  destruct (Hmin x Hx) as (c & Hc & Hle).
  rewrite Hdv in Hc. injection Hc as ->.
  pose proof (menor_true _ _ Hmenor c eq_refl). lia.
Qed.

Lemma relajando_vecinos_dist u d vs : ∀ st st',
  relajando G origen u d vs st ->
  relajar (pesos G) u d vs st = Val st' ->
  ∀ x, x ∈ visitados st -> distancias st' !! x = distancias st !! x.
Proof using Hok Horigen Hnn.
  induction vs as [|v vs IH]; intros st st' Hrel; simpl.
  - by intros [= <-].
  - destruct (relajar_vecino (pesos G) u d st v) as [st1| |] eqn:H1;
      simpl; try discriminate.
    intros H2 x Hx.
    destruct (relajando_vecino G origen Hok Horigen Hnn _ _ _ _ _ _ Hrel H1)
      as [Hrel1 Hv1].
    rewrite (IH st1 st' Hrel1 H2) by (by rewrite Hv1).
    by apply (relajando_vecino_dist u d v vs st st1).
Qed.

Lemma etiquetas_optimas_visitar st d u cola' :
  inv_dijkstra G origen nada_por_relajar st -> etiquetas_optimas G origen st ->
  heappop (cola_prioridad st) = Some ((d, u), cola') ->
  u ∉ visitados st ->
  etiquetas_optimas G origen (visitar st u cola').
Proof using Hok Horigen Hnn.
  intros Hi He Hpop Hu v c p k Hv Hc Hr. simpl in Hv, Hc.
  destruct (decide (v = u)) as [->|Hne]; [|apply (He v c p k); [set_solver|done|done]].
  pose proof (pop_etiqueta G origen Hok Horigen Hnn st d u cola' Hi Hpop Hu) as Hdu.
  assert (c = d) as -> by congruence.
  by apply (pop_optimo G origen Hok Horigen Hnn st d u cola' Hi Hpop Hu p k).
Qed.

Lemma etiquetas_optimas_relajar u d vs st st' :
  relajando G origen u d vs st -> etiquetas_optimas G origen st ->
  relajar (pesos G) u d vs st = Val st' ->
  etiquetas_optimas G origen st'.
Proof using Hok Horigen Hnn.
  intros Hrel He Hst v c p k Hv Hc Hr.
  destruct (relajando_vecinos G origen Hok Horigen Hnn _ _ _ _ _ Hrel Hst)
    as [_ Hv'].
  rewrite Hv' in Hv.
  rewrite (relajando_vecinos_dist u d vs st st' Hrel Hst v Hv) in Hc.
  by apply (He v c p k).
Qed.
End etiquetas.

(** X16. For non-negative weights every stop of a returned path is
    reached at least cost: cutting the path after any of its nodes [x]
    leaves a route from [origen] to [x] that no route from [origen] to
    [x] undercuts. *)
Theorem dijkstra_prefijos_optimos G origen destino fuel c p n p1 x p2 :
  grafo_ok G -> pesos_no_negativos G -> origen ∈ vertices G ->
  (cota G <= fuel)%nat ->
  (dijkstra fuel G origen destino).2 = Val (Some c, p, n) ->
  p = p1 ++ x :: p2 ->
  es_camino G origen x (p1 ++ [x]) ∧
  ∀ q, es_camino G origen x q ->
       costo_camino G (p1 ++ [x]) <= costo_camino G q.
Proof.
  intros Hok Hnn Ho Hfuel. pose proof (cota_entradas G) as Hce.
  pose proof (cota_vertices G) as Hcv.
  destruct (bucle_regla G origen destino Hok Ho
              (fun st => inv_dijkstra G origen nada_por_relajar st ∧
                         (destino ∉ visitados st) ∧
                         etiquetas_optimas G origen st)) with
    (fuel := fuel) (g := grafo G) (st := estado_inicial G origen)
    as (g' & st' & Hb & _ & Hfin).
  - intros g st d u cola' _ (Hi & Hnd & He) Hpop Hu.
    split; [eauto using inv_dijkstra_descartar|]. split; [done|]. exact He.
  - intros g st d u cola' st2 _ (Hi & Hnd & He) Hpop Hu Hne Hrel.
    pose proof (inv_dijkstra_visitar G origen Hok Ho Hnn st d u cola' Hi Hpop Hu) as Hr.
    pose proof (etiquetas_optimas_visitar G origen Hok Ho Hnn st d u cola'
                  Hi He Hpop Hu) as He1.
    destruct (relajando_vecinos G origen Hok Ho Hnn _ _ _ _ _ Hr Hrel) as [Hi2 Hv2].
    split; [done|]. split; [rewrite Hv2; simpl; set_solver|].
    eauto using etiquetas_optimas_relajar.
  - by apply inv_basico_inicial.
  - split; [by apply inv_dijkstra_inicial|]. split; [simpl; set_solver|].
    intros v k q k' Hv. simpl in Hv. set_solver.
  - rewrite medida_inicial. lia.
  - unfold dijkstra. rewrite Hb. simpl. unfold getitem.
    destruct Hfin as [(_ & (Hi & Hnd & _) & Hq)
                     |(st & d & cola' & Hbas & (Hi & _ & He) & Hpop & Hnd & ->)].
    + destruct (distancias st' !! destino) as [[k|]|] eqn:Hk; simpl; try done.
      pose proof (id_cola_completa _ _ _ _ Hi _ _ Hk Hnd) as Hin.
      rewrite Hq in Hin. by apply not_elem_of_nil in Hin.
    + destruct (inv_dijkstra_visitar G origen Hok Ho Hnn st d destino cola' Hi Hpop Hnd)
        as (Hi' & Hin & Hdd & _).
      pose proof (etiquetas_optimas_visitar G origen Hok Ho Hnn st d destino cola'
                    Hi He Hpop Hnd) as He'.
      destruct (id_cadena _ _ _ _ Hi' destino Hin) as (l & k & Hcad & Hl & Hlen & _).
      simpl in Hdd |- *. rewrite Hdd. simpl.
      assert (Hsub : visitados (visitar st destino cola') ⊆ vertices G).
      { simpl. destruct (ib_cola _ _ _ _ Hbas d destino) as [? _];
          [eauto using heappop_elem|].
        pose proof (ib_visitados _ _ _ _ Hbas). set_solver. }
      rewrite (reconstruir_cadena _ _ _ Hcad) by
        (etrans; [exact Hlen|]; etrans; [by apply subseteq_size|lia]).
      simpl. intros [= <- <- <-] Hcorte.
      assert (Hl' : l = rev p2 ++ x :: rev p1).
      { rewrite <- (rev_involutive l), Hcorte, rev_app_distr. simpl.
        by rewrite <- app_assoc. }
      assert (Hx : x ∈ visitados (visitar st destino cola')).
      { apply Hl. rewrite Hl'. apply elem_of_app. right. apply list_elem_of_here. }
      pose proof (cadena_sufijo _ _ _ Hcad _ _ _ Hl') as Hcx.
      destruct (id_cadena _ _ _ _ Hi' x Hx) as (l0 & c0 & Hcad0 & _ & _ & Hc0 & Hr0).
      assert (l0 = x :: rev p1) as -> by eauto using cadena_funcional.
      simpl in Hr0. rewrite rev_involutive in Hr0.
      destruct (ruta_es_camino _ _ _ _ _ Hr0) as [Hes Hcost]. split; [done|].
      intros q Hq%es_camino_ruta. rewrite Hcost.
      by apply (He' x c0 q (costo_camino G q)).
Qed.

Lemma dijkstra_prefijos_optimos_witness :
  es_camino red 0 12 ([0; 1; 2; 7] ++ [12]) ∧
  ∀ q, es_camino red 0 12 q ->
       costo_camino red ([0; 1; 2; 7] ++ [12]) <= costo_camino red q.
Proof.
  apply (dijkstra_prefijos_optimos red 0 24 (cota red) 129
           [0; 1; 2; 7; 12; 13; 18; 19; 24] 9%nat [0; 1; 2; 7] 12 [13; 18; 19; 24]).
  - calcula.
  - calcula.
  - calcula.
  - apply le_n.
  - vm_compute. reflexivity.
  - reflexivity.
Defined.
